(** * STM32BufferedSerial: interrupt-driven buffered UART driver

    A shallow embedding of [STM32BufferedSerial.cpp] and of the two HAL
    completion callbacks, with the properties of the ring-buffer
    discipline, of the transfer engine and of the instance registry.

    Conventions.
    - [uint16_t] values are [Z]; where the C++ stores an [int] expression
      back into a [uint16_t] the truncation is written [to_uint16].
      Operands of [+], [-], [%] and [<] are promoted to [int] first, so the
      arithmetic inside an expression is exact.
    - [uint8_t] values are [Byte.byte]; a byte returned through an [int]
      is [byte_to_int].
    - The two heap arrays are [list byte]; [a[i] = v] is stdpp's
      [<[i:=v]>] and [a[i]] is [!!!].  An access outside the array is
      undefined in C++; the model then leaves the list unchanged (write)
      or yields [x00] (read).  Every theorem about the arrays assumes the
      indices are inside ([port_wf]).
    - Pointers are addresses in [Z], [nullptr] is [0].
    - The STM32 HAL is not part of the repository: the driver is written
      against the [Transport] interface, and every call into the HAL is
      recorded in a trace. *)

From Stdlib Require Import ZArith Lia.
From Stdlib.Strings Require Import Byte.
From stdpp Require Import base option list gmap.

Local Open Scope Z_scope.

(** ** Machine integers and pointers *)

Definition to_uint16 (z : Z) : Z := z mod 65536.

Definition byte_to_int (b : byte) : Z := Z.of_N (Byte.to_N b).

Definition ptr : Type := Z.
Definition nullptr : ptr := 0.

#[global] Instance byte_inhabited : Inhabited byte := populate x00.

(** ** The HAL boundary *)

Inductive HAL_StatusTypeDef : Type :=
| HAL_OK
| HAL_ERROR
| HAL_BUSY
| HAL_TIMEOUT.

Inductive HAL_UART_StateTypeDef : Type :=
| HAL_UART_STATE_RESET
| HAL_UART_STATE_READY
| HAL_UART_STATE_BUSY
| HAL_UART_STATE_BUSY_TX
| HAL_UART_STATE_BUSY_RX
| HAL_UART_STATE_BUSY_TX_RX
| HAL_UART_STATE_TIMEOUT
| HAL_UART_STATE_ERROR.

Definition is_HAL_OK (r : HAL_StatusTypeDef) : bool :=
  match r with HAL_OK => true | _ => false end.

Definition is_READY (g : HAL_UART_StateTypeDef) : bool :=
  match g with HAL_UART_STATE_READY => true | _ => false end.

(** One entry per call the driver makes into the HAL, in program order.
    The receive and transmit requests are always one-unit requests
    ([Size = 1]).  A transmit request is recorded with the byte its
    pointer argument refers to when the call is made; the pointer is
    [&data], the address of a local of the caller, and the lifetime of
    that local is not part of the model. *)
Inductive HalCall : Type :=
| Call_Receive_IT (ret : HAL_StatusTypeDef)
| Call_Transmit_IT (data : byte) (ret : HAL_StatusTypeDef)
| Call_UNLOCK
| Call_AbortReceive.

(** The part of [UART_HandleTypeDef] and of the HAL the driver uses.  The
    HAL's sources are outside the repository, so they are a parameter.
    [HAL_UART_AbortReceive] also returns a status, which the driver
    drops. *)
Class Transport (T : Type) : Type := {
  uart_Instance : T -> ptr;
  gState : T -> HAL_UART_StateTypeDef;
  HAL_UART_Receive_IT : T -> HAL_StatusTypeDef * T;
  HAL_UART_Transmit_IT : byte -> T -> HAL_StatusTypeDef * T;
  HAL_UART_AbortReceive : T -> T;
  __HAL_UNLOCK : T -> T
}.

(** The peripheral base addresses of the device header ([USART1], ...),
    which is outside the repository as well. *)
Class Device : Type := {
  USART1 : ptr;
  USART2 : ptr;
  USART3 : ptr;
  UART4 : ptr;
  UART5 : ptr;
  USART6 : ptr
}.

(** ** The driver object *)

Record STM32BufferedSerial : Type := {
  _huart : ptr;
  _rxBuf : list byte;
  _txBuf : list byte;
  _rxSize : Z;
  _txSize : Z;
  _rxHead : Z;
  _rxTail : Z;
  _txHead : Z;
  _txTail : Z;
  _rxTmp : byte
}.

Definition with_rxBuf (v : list byte) (s : STM32BufferedSerial) : STM32BufferedSerial :=
  {| _huart := _huart s; _rxBuf := v; _txBuf := _txBuf s;
     _rxSize := _rxSize s; _txSize := _txSize s;
     _rxHead := _rxHead s; _rxTail := _rxTail s;
     _txHead := _txHead s; _txTail := _txTail s; _rxTmp := _rxTmp s |}.

Definition with_txBuf (v : list byte) (s : STM32BufferedSerial) : STM32BufferedSerial :=
  {| _huart := _huart s; _rxBuf := _rxBuf s; _txBuf := v;
     _rxSize := _rxSize s; _txSize := _txSize s;
     _rxHead := _rxHead s; _rxTail := _rxTail s;
     _txHead := _txHead s; _txTail := _txTail s; _rxTmp := _rxTmp s |}.

Definition with_rxHead (v : Z) (s : STM32BufferedSerial) : STM32BufferedSerial :=
  {| _huart := _huart s; _rxBuf := _rxBuf s; _txBuf := _txBuf s;
     _rxSize := _rxSize s; _txSize := _txSize s;
     _rxHead := v; _rxTail := _rxTail s;
     _txHead := _txHead s; _txTail := _txTail s; _rxTmp := _rxTmp s |}.

Definition with_rxTail (v : Z) (s : STM32BufferedSerial) : STM32BufferedSerial :=
  {| _huart := _huart s; _rxBuf := _rxBuf s; _txBuf := _txBuf s;
     _rxSize := _rxSize s; _txSize := _txSize s;
     _rxHead := _rxHead s; _rxTail := v;
     _txHead := _txHead s; _txTail := _txTail s; _rxTmp := _rxTmp s |}.

Definition with_txHead (v : Z) (s : STM32BufferedSerial) : STM32BufferedSerial :=
  {| _huart := _huart s; _rxBuf := _rxBuf s; _txBuf := _txBuf s;
     _rxSize := _rxSize s; _txSize := _txSize s;
     _rxHead := _rxHead s; _rxTail := _rxTail s;
     _txHead := v; _txTail := _txTail s; _rxTmp := _rxTmp s |}.

Definition with_txTail (v : Z) (s : STM32BufferedSerial) : STM32BufferedSerial :=
  {| _huart := _huart s; _rxBuf := _rxBuf s; _txBuf := _txBuf s;
     _rxSize := _rxSize s; _txSize := _txSize s;
     _rxHead := _rxHead s; _rxTail := _rxTail s;
     _txHead := _txHead s; _txTail := v; _rxTmp := _rxTmp s |}.

Definition with_rxTmp (v : byte) (s : STM32BufferedSerial) : STM32BufferedSerial :=
  {| _huart := _huart s; _rxBuf := _rxBuf s; _txBuf := _txBuf s;
     _rxSize := _rxSize s; _txSize := _txSize s;
     _rxHead := _rxHead s; _rxTail := _rxTail s;
     _txHead := _txHead s; _txTail := _txTail s; _rxTmp := v |}.

(** The member initialisers of the constructor.  [new uint8_t[n]] leaves
    the arrays uninitialised, so their first contents are arguments. *)
Definition new_serial (huart : ptr) (bufSize : Z) (rxInit txInit : list byte)
  : STM32BufferedSerial :=
  {| _huart := huart; _rxBuf := rxInit; _txBuf := txInit;
     _rxSize := bufSize; _txSize := bufSize;
     _rxHead := 0; _rxTail := 0; _txHead := 0; _txTail := 0;
     _rxTmp := x00 |}.

(** ** Pure observers *)

Definition available (s : STM32BufferedSerial) : bool :=
  negb (_rxHead s =? _rxTail s).

Definition readable_len (s : STM32BufferedSerial) : Z :=
  if _rxHead s <? _rxTail s
  then _rxSize s - (_rxTail s - _rxHead s)
  else _rxHead s - _rxTail s.

Definition flushRx (s : STM32BufferedSerial) : STM32BufferedSerial :=
  with_rxHead 0 (with_rxTail 0 s).

Definition flushTx (s : STM32BufferedSerial) : STM32BufferedSerial :=
  with_txHead 0 (with_txTail 0 s).

(** [getHandle() const { return _huart; }] of the header. *)
Definition getHandle (s : STM32BufferedSerial) : ptr := _huart s.

(** The inbound half and the outbound half of an object are the same in
    two states. *)
Definition same_rx (s s' : STM32BufferedSerial) : Prop :=
  _rxBuf s' = _rxBuf s /\ _rxSize s' = _rxSize s /\
  _rxHead s' = _rxHead s /\ _rxTail s' = _rxTail s /\ _rxTmp s' = _rxTmp s.

Definition same_tx (s s' : STM32BufferedSerial) : Prop :=
  _txBuf s' = _txBuf s /\ _txSize s' = _txSize s /\
  _txHead s' = _txHead s /\ _txTail s' = _txTail s.

(** ** The instance registry *)

Section Registry.
Context {T : Type} `{Transport T} `{Device}.

(** [instance_table_[MAX_UARTS] = {nullptr}] *)
Definition MAX_UARTS : nat := 6.
Definition instance_table_init : list ptr := replicate MAX_UARTS nullptr.

Definition registerInstance (huart : T) (instance : ptr) (tbl : list ptr) : list ptr :=
  if uart_Instance huart =? USART1 then <[0%nat := instance]> tbl
  else if uart_Instance huart =? USART2 then <[1%nat := instance]> tbl
  else if uart_Instance huart =? USART3 then <[2%nat := instance]> tbl
  else if uart_Instance huart =? UART4 then <[3%nat := instance]> tbl
  else if uart_Instance huart =? UART5 then <[4%nat := instance]> tbl
  else if uart_Instance huart =? USART6 then <[5%nat := instance]> tbl
  else tbl.

Definition fromHandle (huart : T) (tbl : list ptr) : ptr :=
  if uart_Instance huart =? USART1 then tbl !!! 0%nat
  else if uart_Instance huart =? USART2 then tbl !!! 1%nat
  else if uart_Instance huart =? USART3 then tbl !!! 2%nat
  else if uart_Instance huart =? UART4 then tbl !!! 3%nat
  else if uart_Instance huart =? UART5 then tbl !!! 4%nat
  else if uart_Instance huart =? USART6 then tbl !!! 5%nat
  else nullptr.

(** The slot the two chains of tests select for a peripheral, if any. *)
Definition slot_of (i : ptr) : option nat :=
  if i =? USART1 then Some 0%nat
  else if i =? USART2 then Some 1%nat
  else if i =? USART3 then Some 2%nat
  else if i =? UART4 then Some 3%nat
  else if i =? UART5 then Some 4%nat
  else if i =? USART6 then Some 5%nat
  else None.

(** [huart->Instance] is one of the six peripherals the two functions test. *)
Definition supported (i : ptr) : Prop :=
  i = USART1 \/ i = USART2 \/ i = USART3 \/ i = UART4 \/ i = UART5 \/ i = USART6.

End Registry.

(** ** Methods that talk to the transport

    A method runs on its object ([self]), on the handle [_huart] points
    to ([uart]) and extends the trace of HAL calls ([hal_trace]). *)

Section Methods.
Context {T : Type} `{Transport T}.

Record Ctx : Type := {
  self : STM32BufferedSerial;
  uart : T;
  hal_trace : list HalCall
}.

Definition M (A : Type) : Type := Ctx -> A * Ctx.

Definition ret {A : Type} (a : A) : M A := fun c => (a, c).

Definition bind {A B : Type} (m : M A) (k : A -> M B) : M B :=
  fun c => let '(a, c') := m c in k a c'.

Definition get_self : M STM32BufferedSerial := fun c => (self c, c).

Definition put_self (s : STM32BufferedSerial) : M unit :=
  fun c => (tt, {| self := s; uart := uart c; hal_trace := hal_trace c |}).

Definition get_gState : M HAL_UART_StateTypeDef := fun c => (gState (uart c), c).

Definition call_Receive_IT : M HAL_StatusTypeDef := fun c =>
  let '(r, u) := HAL_UART_Receive_IT (uart c) in
  (r, {| self := self c; uart := u;
         hal_trace := hal_trace c ++ [Call_Receive_IT r] |}).

Definition call_Transmit_IT (data : byte) : M HAL_StatusTypeDef := fun c =>
  let '(r, u) := HAL_UART_Transmit_IT data (uart c) in
  (r, {| self := self c; uart := u;
         hal_trace := hal_trace c ++ [Call_Transmit_IT data r] |}).

Definition call_UNLOCK : M unit := fun c =>
  (tt, {| self := self c; uart := __HAL_UNLOCK (uart c);
          hal_trace := hal_trace c ++ [Call_UNLOCK] |}).

Definition call_AbortReceive : M unit := fun c =>
  (tt, {| self := self c; uart := HAL_UART_AbortReceive (uart c);
          hal_trace := hal_trace c ++ [Call_AbortReceive] |}).

Declare Scope driver_scope.
Delimit Scope driver_scope with drv.
Notation "x <- m ;; k" := (bind m (fun x => k))
  (at level 100, m at next level, k at level 200, right associativity)
  : driver_scope.
Notation "m ;; k" := (bind m (fun _ => k))
  (at level 100, k at level 200, right associativity) : driver_scope.
Local Open Scope driver_scope.

Definition _startRxInterrupt : M unit :=
  _ <- call_Receive_IT ;; ret tt.

Definition begin : M unit := _startRxInterrupt.

Definition handleRxComplete : M unit :=
  s <- get_self ;;
  let next := to_uint16 ((_rxHead s + 1) mod _rxSize s) in
  (if negb (next =? _rxTail s)
   then put_self (with_rxHead next
                    (with_rxBuf (<[Z.to_nat (_rxHead s) := _rxTmp s]> (_rxBuf s)) s))
   else ret tt) ;;
  r <- call_Receive_IT ;;
  if negb (is_HAL_OK r)
  then call_UNLOCK ;; call_AbortReceive ;; _ <- call_Receive_IT ;; ret tt
  else ret tt.

Definition handleTxComplete : M unit :=
  s <- get_self ;;
  if negb (_txTail s =? _txHead s)
  then
    let data := _txBuf s !!! Z.to_nat (_txTail s) in
    put_self (with_txTail (to_uint16 ((_txTail s + 1) mod _txSize s)) s) ;;
    _ <- call_Transmit_IT data ;; ret tt
  else ret tt.

Definition _startTxInterrupt : M unit :=
  s <- get_self ;;
  if _txTail s =? _txHead s then ret tt
  else
    let data := _txBuf s !!! Z.to_nat (_txTail s) in
    put_self (with_txTail (to_uint16 ((_txTail s + 1) mod _txSize s)) s) ;;
    _ <- call_Transmit_IT data ;; ret tt.

Definition read : M Z :=
  s <- get_self ;;
  if _rxTail s =? _rxHead s then ret (-1)
  else
    let data := _rxBuf s !!! Z.to_nat (_rxTail s) in
    put_self (with_rxTail (to_uint16 ((_rxTail s + 1) mod _rxSize s)) s) ;;
    ret (byte_to_int data).

Definition write (data : byte) : M Z :=
  s <- get_self ;;
  let next := to_uint16 ((_txHead s + 1) mod _txSize s) in
  if next =? _txTail s then ret (-1)
  else
    put_self (with_txHead next
                (with_txBuf (<[Z.to_nat (_txHead s) := data]> (_txBuf s)) s)) ;;
    g <- get_gState ;;
    (if is_READY g then _startTxInterrupt else ret tt) ;;
    ret 1.

(** The body of the [for] loop of [write(const uint8_t*, uint16_t)], over
    the elements [data[i .. len-1]] still to visit. *)
Fixpoint write_loop (data : list byte) (written : Z) : M Z :=
  match data with
  | [] => ret written
  | d :: rest =>
      r <- write d ;;
      if r =? 1 then write_loop rest (written + 1) else ret written
  end.

(** [write(data, len)]: [data] holds at least [len] bytes. *)
Definition write_buf (data : list byte) (len : Z) : M Z :=
  write_loop (take (Z.to_nat len) data) 0.

Definition push (c : byte) : M unit :=
  s <- get_self ;;
  let next := to_uint16 ((_rxHead s + 1) mod _rxSize s) in
  if negb (next =? _rxTail s)
  then put_self (with_rxHead next
                   (with_rxBuf (<[Z.to_nat (_rxHead s) := c]> (_rxBuf s)) s))
  else ret tt.

Definition pop : M Z :=
  s <- get_self ;;
  if _rxHead s =? _rxTail s then ret (-1)
  else
    let val := _rxBuf s !!! Z.to_nat (_rxTail s) in
    put_self (with_rxTail (to_uint16 ((_rxTail s + 1) mod _rxSize s)) s) ;;
    ret (byte_to_int val).

(** The receive interrupt stores the incoming byte through the pointer
    [&_rxTmp] given to [HAL_UART_Receive_IT], then the completion
    callback runs. *)
Definition hw_store_rx (b : byte) : M unit :=
  s <- get_self ;; put_self (with_rxTmp b s).

Definition rx_event (b : byte) : M unit :=
  hw_store_rx b ;; handleRxComplete.

(** Running a list of actions and collecting their results. *)
Fixpoint run_all {A : Type} (ms : list (M A)) : M (list A) :=
  match ms with
  | [] => ret []
  | m :: rest => a <- m ;; l <- run_all rest ;; ret (a :: l)
  end.

(** ** The logical contents of a ring

    [ring_take buf N i n] reads [n] cells from index [i] on, wrapping at
    [N]; the contents are the [(head - tail) mod N] cells from [tail]. *)

Fixpoint ring_take (buf : list byte) (N i : Z) (n : nat) : list byte :=
  match n with
  | O => []
  | S n' => (buf !!! Z.to_nat i) :: ring_take buf N ((i + 1) mod N) n'
  end.

Definition ring_len (N head tail : Z) : Z := (head - tail) mod N.

Definition ring_contents (buf : list byte) (N head tail : Z) : list byte :=
  ring_take buf N tail (Z.to_nat (ring_len N head tail)).

Definition rx_contents (s : STM32BufferedSerial) : list byte :=
  ring_contents (_rxBuf s) (_rxSize s) (_rxHead s) (_rxTail s).

Definition tx_contents (s : STM32BufferedSerial) : list byte :=
  ring_contents (_txBuf s) (_txSize s) (_txHead s) (_txTail s).

(** Well-formed rings: a capacity that fits [uint16_t] and is not zero
    (so [%] is defined), indices inside it, arrays of that size. *)
Definition ring_wf (buf : list byte) (N head tail : Z) : Prop :=
  0 < N < 65536 /\ 0 <= head < N /\ 0 <= tail < N /\ Z.of_nat (length buf) = N.

Definition rx_wf (s : STM32BufferedSerial) : Prop :=
  ring_wf (_rxBuf s) (_rxSize s) (_rxHead s) (_rxTail s).

Definition tx_wf (s : STM32BufferedSerial) : Prop :=
  ring_wf (_txBuf s) (_txSize s) (_txHead s) (_txTail s).

Definition port_wf (s : STM32BufferedSerial) : Prop := rx_wf s /\ tx_wf s.

(** The bytes handed to [HAL_UART_Transmit_IT], in call order. *)
Fixpoint transmitted (tr : list HalCall) : list byte :=
  match tr with
  | [] => []
  | Call_Transmit_IT d _ :: rest => d :: transmitted rest
  | _ :: rest => transmitted rest
  end.

(** The number of [HAL_UART_Receive_IT] calls in a trace. *)
Fixpoint receive_requests (tr : list HalCall) : nat :=
  match tr with
  | [] => O
  | Call_Receive_IT _ :: rest => S (receive_requests rest)
  | _ :: rest => receive_requests rest
  end.

(** The object after the two stores of an accepted enqueue, and after
    the store of a dequeue. *)
Definition rx_enqueued (b : byte) (s : STM32BufferedSerial) : STM32BufferedSerial :=
  with_rxHead (to_uint16 ((_rxHead s + 1) mod _rxSize s))
    (with_rxBuf (<[Z.to_nat (_rxHead s) := b]> (_rxBuf s)) s).

Definition rx_dequeued (s : STM32BufferedSerial) : STM32BufferedSerial :=
  with_rxTail (to_uint16 ((_rxTail s + 1) mod _rxSize s)) s.

Definition tx_enqueued (d : byte) (s : STM32BufferedSerial) : STM32BufferedSerial :=
  with_txHead (to_uint16 ((_txHead s + 1) mod _txSize s))
    (with_txBuf (<[Z.to_nat (_txHead s) := d]> (_txBuf s)) s).

Definition tx_dequeued (s : STM32BufferedSerial) : STM32BufferedSerial :=
  with_txTail (to_uint16 ((_txTail s + 1) mod _txSize s)) s.

(** The guard of [handleRxComplete]: the staged byte is accepted. *)
Definition rx_has_room (s : STM32BufferedSerial) : bool :=
  negb (to_uint16 ((_rxHead s + 1) mod _rxSize s) =? _rxTail s).

(** The guard of [write]: the byte is refused. *)
Definition tx_full (s : STM32BufferedSerial) : bool :=
  to_uint16 ((_txHead s + 1) mod _txSize s) =? _txTail s.

Definition with_self (s : STM32BufferedSerial) (c : Ctx) : Ctx :=
  {| self := s; uart := uart c; hal_trace := hal_trace c |}.

(** What a transmit-side dequeue does between [c] and [c']: nothing on an
    empty ring; otherwise one transmit request that carries the oldest
    byte, which leaves the ring as [tail] advances by one. *)
Definition tx_dequeue_spec (c c' : Ctx) : Prop :=
  match tx_contents (self c) with
  | [] => c' = c
  | b :: q =>
      exists r : HAL_StatusTypeDef,
        hal_trace c' = hal_trace c ++ [Call_Transmit_IT b r] /\
        tx_contents (self c') = q /\
        _txTail (self c') = (_txTail (self c) + 1) mod _txSize (self c) /\
        _txHead (self c') = _txHead (self c)
  end.

(** ** Sequences of inbound operations, with the two counters of the
    capacity invariant: pushes accepted and pops performed. *)

Inductive RxOp : Type :=
| RxComplete (b : byte)
| RxRead.

Record RxRun : Type := {
  run_ctx : Ctx;
  pushes_accepted : Z;
  pops_performed : Z
}.

Definition rx_step (r : RxRun) (op : RxOp) : RxRun :=
  match op with
  | RxComplete b =>
      {| run_ctx := snd (rx_event b (run_ctx r));
         pushes_accepted :=
           if rx_has_room (self (run_ctx r))
           then pushes_accepted r + 1 else pushes_accepted r;
         pops_performed := pops_performed r |}
  | RxRead =>
      let '(v, c') := read (run_ctx r) in
      {| run_ctx := c';
         pushes_accepted := pushes_accepted r;
         pops_performed :=
           if v =? -1 then pops_performed r else pops_performed r + 1 |}
  end.

Definition rx_run (c : Ctx) (ops : list RxOp) : RxRun :=
  fold_left rx_step ops {| run_ctx := c; pushes_accepted := 0; pops_performed := 0 |}.

(** Indices inside the capacity, and the count equal to the difference
    of the two counters. *)
Definition rx_inv (r : RxRun) : Prop :=
  let s := self (run_ctx r) in
  0 < _rxSize s < 65536 /\
  0 <= _rxHead s < _rxSize s /\
  0 <= _rxTail s < _rxSize s /\
  readable_len s = pushes_accepted r - pops_performed r.

(** Sequences of outbound operations, with the bytes [write] accepted
    (returned [1] for), oldest first. *)
Inductive TxOp : Type :=
| TxWrite (d : byte)
| TxComplete.

Record TxRun : Type := {
  tx_ctx : Ctx;
  bytes_accepted : list byte
}.

Definition tx_step (r : TxRun) (op : TxOp) : TxRun :=
  match op with
  | TxWrite d =>
      let '(v, c') := write d (tx_ctx r) in
      {| tx_ctx := c';
         bytes_accepted :=
           if v =? 1 then bytes_accepted r ++ [d] else bytes_accepted r |}
  | TxComplete =>
      {| tx_ctx := snd (handleTxComplete (tx_ctx r));
         bytes_accepted := bytes_accepted r |}
  end.

Definition tx_run (c : Ctx) (ops : list TxOp) : TxRun :=
  fold_left tx_step ops {| tx_ctx := c; bytes_accepted := [] |}.

(** Between [c] and [c'] both rings stay well formed, and the capacities
    and the handle pointer are the ones of [c]. *)
Definition keeps_port (c c' : Ctx) : Prop :=
  port_wf (self c') /\
  _rxSize (self c') = _rxSize (self c) /\
  _txSize (self c') = _txSize (self c) /\
  getHandle (self c') = getHandle (self c).

End Methods.

Arguments Ctx T : clear implicits.
Arguments M T A : clear implicits.
Arguments RxRun T : clear implicits.
Arguments TxRun T : clear implicits.

(** ** The program state: registry table, objects and handles

    Objects and handles live at addresses; a method call through a
    pointer that holds no object, or whose [_huart] holds no handle, is
    undefined in C++ and [None] here. *)

Section World.
Context {T : Type} `{Transport T} `{Device}.

Record World : Type := {
  instance_table_ : list ptr;
  objects : gmap Z STM32BufferedSerial;
  handles : gmap Z T;
  world_trace : list HalCall
}.

Definition invoke {A : Type} (this : ptr) (m : M T A) (w : World) : option (A * World) :=
  o ← objects w !! this;
  u ← handles w !! _huart o;
  let '(a, c) := m {| self := o; uart := u; hal_trace := world_trace w |} in
  Some (a, {| instance_table_ := instance_table_ w;
              objects := <[this := self c]> (objects w);
              handles := <[_huart o := uart c]> (handles w);
              world_trace := hal_trace c |}).

Definition invoke_ {A : Type} (this : ptr) (m : M T A) (w : World) : option World :=
  snd <$> invoke this m w.

(** A [const] method or one that only touches the object. *)
Definition update_object (this : ptr) (f : STM32BufferedSerial -> STM32BufferedSerial)
    (w : World) : option World :=
  o ← objects w !! this;
  Some {| instance_table_ := instance_table_ w;
          objects := <[this := f o]> (objects w);
          handles := handles w;
          world_trace := world_trace w |}.

(** The static [registerInstance(huart, instance)] on the program state. *)
Definition call_registerInstance (huart instance : ptr) (w : World) : option World :=
  h ← handles w !! huart;
  Some {| instance_table_ := registerInstance h instance (instance_table_ w);
          objects := objects w;
          handles := handles w;
          world_trace := world_trace w |}.

(** The constructor, run for an object placed at address [this]: the
    member initialisers, the two allocations, then
    [registerInstance(_huart, this)]. *)
Definition construct (this huart : ptr) (bufSize : Z) (rxInit txInit : list byte)
    (w : World) : option World :=
  call_registerInstance huart this
    {| instance_table_ := instance_table_ w;
       objects := <[this := new_serial huart bufSize rxInit txInit]> (objects w);
       handles := handles w;
       world_trace := world_trace w |}.

Definition HAL_UART_RxCpltCallback (huart : ptr) (w : World) : option World :=
  h ← handles w !! huart;
  let obj := fromHandle h (instance_table_ w) in
  if obj =? nullptr then Some w else invoke_ obj handleRxComplete w.

Definition HAL_UART_TxCpltCallback (huart : ptr) (w : World) : option World :=
  h ← handles w !! huart;
  let obj := fromHandle h (instance_table_ w) in
  if obj =? nullptr then Some w else invoke_ obj handleTxComplete w.

(** Everything that can happen to the program state: the public surface
    of the class, the two callbacks, and the hardware changing a handle
    or storing a received byte. *)
Inductive Op : Type :=
| OpConstruct (this huart : ptr) (bufSize : Z) (rxInit txInit : list byte)
| OpRegisterInstance (huart instance : ptr)
| OpBegin (this : ptr)
| OpRead (this : ptr)
| OpWrite (this : ptr) (data : byte)
| OpWriteBuf (this : ptr) (data : list byte) (len : Z)
| OpAvailable (this : ptr)
| OpReadableLen (this : ptr)
| OpFlushRx (this : ptr)
| OpFlushTx (this : ptr)
| OpHandleRxComplete (this : ptr)
| OpHandleTxComplete (this : ptr)
| OpRxCpltCallback (huart : ptr)
| OpTxCpltCallback (huart : ptr)
| OpHwStoreRx (this : ptr) (b : byte)
| OpHwHandle (huart : ptr) (h : T).

Definition step (op : Op) (w : World) : option World :=
  match op with
  | OpConstruct this huart bufSize rxInit txInit =>
      construct this huart bufSize rxInit txInit w
  | OpRegisterInstance huart instance => call_registerInstance huart instance w
  | OpBegin this => invoke_ this begin w
  | OpRead this => invoke_ this read w
  | OpWrite this data => invoke_ this (write data) w
  | OpWriteBuf this data len => invoke_ this (write_buf data len) w
  | OpAvailable this => update_object this (fun o => o) w
  | OpReadableLen this => update_object this (fun o => o) w
  | OpFlushRx this => update_object this flushRx w
  | OpFlushTx this => update_object this flushTx w
  | OpHandleRxComplete this => invoke_ this handleRxComplete w
  | OpHandleTxComplete this => invoke_ this handleTxComplete w
  | OpRxCpltCallback huart => HAL_UART_RxCpltCallback huart w
  | OpTxCpltCallback huart => HAL_UART_TxCpltCallback huart w
  | OpHwStoreRx this b => invoke_ this (hw_store_rx b) w
  | OpHwHandle huart h =>
      Some {| instance_table_ := instance_table_ w;
              objects := objects w;
              handles := <[huart := h]> (handles w);
              world_trace := world_trace w |}
  end.

(** An operation that is a registration: an explicit call or the one the
    constructor makes. *)
Definition is_registration (op : Op) : bool :=
  match op with
  | OpConstruct _ _ _ _ _ | OpRegisterInstance _ _ => true
  | _ => false
  end.

(** The pointer a registration stores. *)
Definition registered_ptr (op : Op) : ptr :=
  match op with
  | OpConstruct this _ _ _ _ => this
  | OpRegisterInstance _ instance => instance
  | _ => nullptr
  end.

(** A run of [registerInstance] calls, oldest first. *)
Definition register_all (regs : list (T * ptr)) (tbl : list ptr) : list ptr :=
  fold_left (fun t r => registerInstance (fst r) (snd r) t) regs tbl.

Fixpoint steps (ops : list Op) (w : World) : option World :=
  match ops with
  | [] => Some w
  | op :: rest => w' ← step op w; steps rest w'
  end.

End World.

Arguments World T : clear implicits.
Arguments Op T : clear implicits.

(** ** A simulated transport *)

(** Modelled from the spec: the transport endpoint of the external
    interfaces section ([issueReceive], [issueTransmit], an idle/busy
    status query, [abortReceive] and unlock), as the simulated transport
    the testable properties speak of; the HAL that implements it is not
    in the repository.  A request is rejected as busy while the matching
    state is not ready or the handle is locked; an accepted receive
    request stays outstanding until it is aborted; the busy flags may be
    stale, that is set with nothing outstanding. *)
Record SimUart : Type := {
  sim_Instance : ptr;
  sim_gState : HAL_UART_StateTypeDef;
  sim_RxState : HAL_UART_StateTypeDef;
  sim_Lock : bool;
  sim_rx_outstanding : nat
}.

Definition sim_Receive_IT (h : SimUart) : HAL_StatusTypeDef * SimUart :=
  if is_READY (sim_RxState h) && negb (sim_Lock h)
  then (HAL_OK, {| sim_Instance := sim_Instance h; sim_gState := sim_gState h;
                   sim_RxState := HAL_UART_STATE_BUSY_RX; sim_Lock := sim_Lock h;
                   sim_rx_outstanding := S (sim_rx_outstanding h) |})
  else (HAL_BUSY, h).

Definition sim_Transmit_IT (d : byte) (h : SimUart) : HAL_StatusTypeDef * SimUart :=
  if is_READY (sim_gState h) && negb (sim_Lock h)
  then (HAL_OK, {| sim_Instance := sim_Instance h;
                   sim_gState := HAL_UART_STATE_BUSY_TX;
                   sim_RxState := sim_RxState h; sim_Lock := sim_Lock h;
                   sim_rx_outstanding := sim_rx_outstanding h |})
  else (HAL_BUSY, h).

Definition sim_AbortReceive (h : SimUart) : SimUart :=
  {| sim_Instance := sim_Instance h; sim_gState := sim_gState h;
     sim_RxState := HAL_UART_STATE_READY; sim_Lock := sim_Lock h;
     sim_rx_outstanding := O |}.

Definition sim_UNLOCK (h : SimUart) : SimUart :=
  {| sim_Instance := sim_Instance h; sim_gState := sim_gState h;
     sim_RxState := sim_RxState h; sim_Lock := false;
     sim_rx_outstanding := sim_rx_outstanding h |}.

#[global] Instance sim_transport : Transport SimUart := {|
  uart_Instance := sim_Instance;
  gState := sim_gState;
  HAL_UART_Receive_IT := sim_Receive_IT;
  HAL_UART_Transmit_IT := sim_Transmit_IT;
  HAL_UART_AbortReceive := sim_AbortReceive;
  __HAL_UNLOCK := sim_UNLOCK
|}.

(** The peripheral base addresses of the STM32F4 memory map. *)
#[global] Instance stm32f4 : Device := {|
  USART1 := 0x40011000;
  USART2 := 0x40004400;
  USART3 := 0x40004800;
  UART4 := 0x40004C00;
  UART5 := 0x40005000;
  USART6 := 0x40011400
|}.

(** ** Sample states *)

Definition sim_uart (inst : ptr) (g rx : HAL_UART_StateTypeDef) (lock : bool) (n : nat)
  : SimUart :=
  {| sim_Instance := inst; sim_gState := g; sim_RxState := rx;
     sim_Lock := lock; sim_rx_outstanding := n |}.

Definition sim_idle : SimUart :=
  sim_uart 0x40004400 HAL_UART_STATE_READY HAL_UART_STATE_READY false 0.

Definition sim_tx_busy : SimUart :=
  sim_uart 0x40004400 HAL_UART_STATE_BUSY_TX HAL_UART_STATE_BUSY_RX false 1.

Definition sim_locked : SimUart :=
  sim_uart 0x40004400 HAL_UART_STATE_BUSY_TX HAL_UART_STATE_READY true 0.

(** A just-constructed port of capacity [n] on the handle state [u]. *)
Definition fresh_ctx (n : nat) (u : SimUart) : Ctx SimUart :=
  {| self := new_serial 0x20000000 (Z.of_nat n) (replicate n x00) (replicate n x00);
     uart := u; hal_trace := [] |}.

Definition ten_bytes : list byte :=
  [x30; x31; x32; x33; x34; x35; x36; x37; x38; x39].

(** A capacity-4 port that already holds three outbound bytes. *)
Definition full4_ctx : Ctx SimUart :=
  snd (write_buf [x61; x62; x63] 3 (fresh_ctx 4 sim_tx_busy)).

(** A capacity-4 port with a byte staged by the receive interrupt. *)
Definition staged_ctx : Ctx SimUart :=
  snd (hw_store_rx x41 (fresh_ctx 4 sim_idle)).

(** The program state before any constructor has run: an empty table,
    no object, and the handle of USART2 at its address. *)
Definition boot_world : World SimUart :=
  {| instance_table_ := instance_table_init;
     objects := ∅;
     handles := {[ 0x20001000 := sim_idle ]};
     world_trace := [] |}.

(** The constructor call [STM32BufferedSerial serial(&huart2, 8)] for an
    object placed at [0x20000000]. *)
Definition construct_op : Op SimUart :=
  OpConstruct 0x20000000 0x20001000 8 (replicate 8 x00) (replicate 8 x00).

(** An idle handle of USART1. *)
Definition sim_usart1 : SimUart :=
  sim_uart 0x40011000 HAL_UART_STATE_READY HAL_UART_STATE_READY false 0.

(** A capacity-1 port: its rings have no usable slot. *)
Definition tiny_ctx : Ctx SimUart := fresh_ctx 1 sim_idle.

(** The program state after [construct_op]. *)
Definition constructed_world : World SimUart :=
  default boot_world (step construct_op boot_world).

(** A handle whose [Instance] has not been set yet, and the start-up
    state with it. *)
Definition sim_unset : SimUart :=
  sim_uart 0 HAL_UART_STATE_RESET HAL_UART_STATE_RESET false 0.

Definition early_world : World SimUart :=
  {| instance_table_ := instance_table_init;
     objects := ∅;
     handles := {[ 0x20001000 := sim_unset ]};
     world_trace := [] |}.

(** A capacity-8 port that already holds three outbound bytes. *)
Definition full8_ctx : Ctx SimUart :=
  snd (write_buf [x61; x62; x63] 3 (fresh_ctx 8 sim_tx_busy)).

(** A capacity-8 port whose inbound ring already holds one byte. *)
Definition one_queued_ctx : Ctx SimUart :=
  snd (rx_event x78 (fresh_ctx 8 sim_idle)).

(** * Properties *)

(** ** Index arithmetic *)

Lemma to_uint16_small (z : Z) : 0 <= z < 65536 -> to_uint16 z = z.
Proof. intros Hz. unfold to_uint16. apply Z.mod_small. exact Hz. Qed.

Lemma succ_mod_cases (N i : Z) :
  0 <= i < N -> (i + 1) mod N = if i + 1 =? N then 0 else i + 1.
Proof.
  intros Hi. destruct (Z.eqb_spec (i + 1) N) as [E | E].
  - rewrite E. apply Z.mod_same. lia.
  - apply Z.mod_small. lia.
Qed.

Lemma succ_mod_range (N i : Z) : 0 <= i < N -> 0 <= (i + 1) mod N < N.
Proof. intros Hi. apply Z.mod_pos_bound. lia. Qed.

Lemma next_index (N i : Z) :
  0 < N < 65536 -> 0 <= i < N -> to_uint16 ((i + 1) mod N) = (i + 1) mod N.
Proof.
  intros HN Hi. apply to_uint16_small.
  pose proof (succ_mod_range N i Hi). lia.
Qed.

Lemma ring_len_cases (N head tail : Z) :
  0 <= head < N -> 0 <= tail < N ->
  ring_len N head tail = if head <? tail then head - tail + N else head - tail.
Proof.
  intros Hh Ht. unfold ring_len. destruct (Z.ltb_spec head tail) as [L | L].
  - symmetry. apply (Z.mod_unique _ _ (-1)); lia.
  - apply Z.mod_small. lia.
Qed.

Lemma ring_len_range (N head tail : Z) :
  0 <= head < N -> 0 <= tail < N -> 0 <= ring_len N head tail <= N - 1.
Proof.
  intros Hh Ht. rewrite ring_len_cases by assumption.
  destruct (head <? tail) eqn:E; [apply Z.ltb_lt in E | apply Z.ltb_ge in E]; lia.
Qed.

Lemma ring_len_empty (N head tail : Z) :
  0 <= head < N -> 0 <= tail < N -> (ring_len N head tail = 0 <-> head = tail).
Proof.
  intros Hh Ht. rewrite ring_len_cases by assumption.
  destruct (head <? tail) eqn:E; [apply Z.ltb_lt in E | apply Z.ltb_ge in E]; lia.
Qed.

Lemma ring_len_full (N head tail : Z) :
  0 <= head < N -> 0 <= tail < N ->
  (ring_len N head tail = N - 1 <-> (head + 1) mod N = tail).
Proof.
  intros Hh Ht. rewrite ring_len_cases, succ_mod_cases by assumption.
  destruct (head <? tail) eqn:E; [apply Z.ltb_lt in E | apply Z.ltb_ge in E];
    destruct (Z.eqb_spec (head + 1) N); lia.
Qed.

Lemma ring_len_pop (N head tail : Z) :
  0 <= head < N -> 0 <= tail < N -> head <> tail ->
  ring_len N head tail = 1 + ring_len N head ((tail + 1) mod N).
Proof.
  intros Hh Ht Hne.
  pose proof (succ_mod_range N tail Ht) as Hr.
  rewrite !ring_len_cases by assumption.
  rewrite succ_mod_cases in * by assumption.
  destruct (Z.eqb_spec (tail + 1) N);
    destruct (head <? tail) eqn:E1; [apply Z.ltb_lt in E1 | apply Z.ltb_ge in E1 | apply Z.ltb_lt in E1 | apply Z.ltb_ge in E1];
    match goal with |- context [?a <? ?b] => destruct (Z.ltb_spec a b) end; lia.
Qed.

Lemma ring_len_push (N head tail : Z) :
  0 <= head < N -> 0 <= tail < N -> (head + 1) mod N <> tail ->
  ring_len N ((head + 1) mod N) tail = ring_len N head tail + 1.
Proof.
  intros Hh Ht Hne.
  pose proof (succ_mod_range N head Hh) as Hr.
  rewrite !ring_len_cases by assumption.
  rewrite succ_mod_cases in * by assumption.
  destruct (Z.eqb_spec (head + 1) N);
    destruct (head <? tail) eqn:E1; [apply Z.ltb_lt in E1 | apply Z.ltb_ge in E1 | apply Z.ltb_lt in E1 | apply Z.ltb_ge in E1];
    match goal with |- context [?a <? ?b] => destruct (Z.ltb_spec a b) end; lia.
Qed.

(** ** The contents of a ring under dequeue and enqueue *)

Lemma ring_take_length (buf : list byte) (N i : Z) (n : nat) :
  length (ring_take buf N i n) = n.
Proof.
  revert i. induction n as [| n IH]; intros i; simpl; [reflexivity |].
  now rewrite IH.
Qed.

Lemma ring_contents_length (buf : list byte) (N head tail : Z) :
  0 <= head < N -> 0 <= tail < N ->
  Z.of_nat (length (ring_contents buf N head tail)) = ring_len N head tail.
Proof.
  intros Hh Ht. unfold ring_contents. rewrite ring_take_length.
  apply Z2Nat.id. pose proof (ring_len_range N head tail Hh Ht). lia.
Qed.

Lemma ring_contents_empty (buf : list byte) (N head tail : Z) :
  0 <= head < N -> 0 <= tail < N ->
  (ring_contents buf N head tail = [] <-> head = tail).
Proof.
  intros Hh Ht. rewrite <- (ring_len_empty N head tail Hh Ht).
  rewrite <- (ring_contents_length buf N head tail Hh Ht).
  destruct (ring_contents buf N head tail); simpl; split; intros E;
    try reflexivity; try discriminate; lia.
Qed.

Lemma ring_contents_pop (buf : list byte) (N head tail : Z) :
  0 <= head < N -> 0 <= tail < N -> head <> tail ->
  ring_contents buf N head tail =
  (buf !!! Z.to_nat tail) :: ring_contents buf N head ((tail + 1) mod N).
Proof.
  intros Hh Ht Hne. unfold ring_contents.
  rewrite (ring_len_pop N head tail Hh Ht Hne).
  pose proof (ring_len_range N head ((tail + 1) mod N) Hh (succ_mod_range N tail Ht)) as Hr.
  replace (Z.to_nat (1 + ring_len N head ((tail + 1) mod N)))
    with (S (Z.to_nat (ring_len N head ((tail + 1) mod N)))) by lia.
  reflexivity.
Qed.

(** Writing the cell at [head] does not disturb the [n] queued cells, and
    the cell read next after them is the one written. *)
Lemma ring_take_push (buf : list byte) (N head : Z) (b : byte) (n : nat) :
  0 <= head < N -> Z.of_nat (length buf) = N ->
  forall tail, 0 <= tail < N -> ring_len N head tail = Z.of_nat n ->
  ring_take (<[Z.to_nat head := b]> buf) N tail (S n) = ring_take buf N tail n ++ [b].
Proof.
  intros Hh Hlen. induction n as [| n IH]; intros tail Ht Hn.
  - apply (ring_len_empty N head tail Hh Ht) in Hn. subst tail. simpl.
    rewrite list_lookup_total_insert_eq by lia. reflexivity.
  - assert (Hne : head <> tail).
    { intros ->. pose proof (proj2 (ring_len_empty N tail tail Ht Ht) eq_refl). lia. }
    change (ring_take (<[Z.to_nat head := b]> buf) N tail (S (S n)))
      with ((<[Z.to_nat head := b]> buf !!! Z.to_nat tail)
              :: ring_take (<[Z.to_nat head := b]> buf) N ((tail + 1) mod N) (S n)).
    rewrite list_lookup_total_insert_ne by lia.
    rewrite (IH ((tail + 1) mod N)).
    + reflexivity.
    + apply succ_mod_range; assumption.
    + pose proof (ring_len_pop N head tail Hh Ht Hne). lia.
Qed.

Lemma ring_contents_push (buf : list byte) (N head tail : Z) (b : byte) :
  0 <= head < N -> 0 <= tail < N -> Z.of_nat (length buf) = N ->
  (head + 1) mod N <> tail ->
  ring_contents (<[Z.to_nat head := b]> buf) N ((head + 1) mod N) tail =
  ring_contents buf N head tail ++ [b].
Proof.
  intros Hh Ht Hlen Hroom. unfold ring_contents.
  rewrite (ring_len_push N head tail Hh Ht Hroom).
  pose proof (ring_len_range N head tail Hh Ht) as Hr.
  replace (Z.to_nat (ring_len N head tail + 1))
    with (S (Z.to_nat (ring_len N head tail))) by lia.
  apply ring_take_push; try assumption. lia.
Qed.

(** ** What each method does *)

Ltac run_m :=
  cbv [handleRxComplete handleTxComplete _startTxInterrupt _startRxInterrupt
       begin read write push pop hw_store_rx rx_event
       bind ret get_self put_self get_gState
       call_Receive_IT call_Transmit_IT call_UNLOCK call_AbortReceive].

Section MethodSpecs.
Context {T : Type} `{Transport T}.

Lemma rx_enqueued_spec (b : byte) (s : STM32BufferedSerial) :
  rx_wf s -> rx_has_room s = true ->
  rx_contents (rx_enqueued b s) = rx_contents s ++ [b] /\
  rx_wf (rx_enqueued b s) /\
  _rxHead (rx_enqueued b s) = (_rxHead s + 1) mod _rxSize s /\
  _rxTail (rx_enqueued b s) = _rxTail s.
Proof.
  intros (HN & Hh & Ht & Hlen) Hroom.
  unfold rx_has_room in Hroom. rewrite next_index in Hroom by assumption.
  apply negb_true_iff, Z.eqb_neq in Hroom.
  unfold rx_contents, rx_wf, ring_wf, rx_enqueued. simpl.
  rewrite next_index by assumption.
  split; [apply ring_contents_push; assumption |].
  rewrite length_insert.
  pose proof (succ_mod_range _ _ Hh). tauto.
Qed.

Lemma tx_enqueued_spec (d : byte) (s : STM32BufferedSerial) :
  tx_wf s -> tx_full s = false ->
  tx_contents (tx_enqueued d s) = tx_contents s ++ [d] /\
  tx_wf (tx_enqueued d s) /\
  _txHead (tx_enqueued d s) = (_txHead s + 1) mod _txSize s /\
  _txTail (tx_enqueued d s) = _txTail s.
Proof.
  intros (HN & Hh & Ht & Hlen) Hroom.
  unfold tx_full in Hroom. rewrite next_index in Hroom by assumption.
  apply Z.eqb_neq in Hroom.
  unfold tx_contents, tx_wf, ring_wf, tx_enqueued. simpl.
  rewrite next_index by assumption.
  split; [apply ring_contents_push; assumption |].
  rewrite length_insert.
  pose proof (succ_mod_range _ _ Hh). tauto.
Qed.

Lemma rx_dequeued_spec (s : STM32BufferedSerial) :
  rx_wf s -> _rxTail s <> _rxHead s ->
  rx_contents s = (_rxBuf s !!! Z.to_nat (_rxTail s)) :: rx_contents (rx_dequeued s) /\
  rx_wf (rx_dequeued s) /\
  _rxTail (rx_dequeued s) = (_rxTail s + 1) mod _rxSize s /\
  _rxHead (rx_dequeued s) = _rxHead s.
Proof.
  intros (HN & Hh & Ht & Hlen) Hne.
  unfold rx_contents, rx_wf, ring_wf, rx_dequeued. simpl.
  rewrite next_index by assumption.
  split; [apply ring_contents_pop; auto |].
  pose proof (succ_mod_range _ _ Ht). tauto.
Qed.

Lemma tx_dequeued_spec (s : STM32BufferedSerial) :
  tx_wf s -> _txTail s <> _txHead s ->
  tx_contents s = (_txBuf s !!! Z.to_nat (_txTail s)) :: tx_contents (tx_dequeued s) /\
  tx_wf (tx_dequeued s) /\
  _txTail (tx_dequeued s) = (_txTail s + 1) mod _txSize s /\
  _txHead (tx_dequeued s) = _txHead s.
Proof.
  intros (HN & Hh & Ht & Hlen) Hne.
  unfold tx_contents, tx_wf, ring_wf, tx_dequeued. simpl.
  rewrite next_index by assumption.
  split; [apply ring_contents_pop; auto |].
  pose proof (succ_mod_range _ _ Ht). tauto.
Qed.

(** The guards, read on the contents. *)
Lemma rx_has_room_length (s : STM32BufferedSerial) :
  rx_wf s ->
  (rx_has_room s = true <-> Z.of_nat (length (rx_contents s)) < _rxSize s - 1).
Proof.
  intros (HN & Hh & Ht & Hlen). unfold rx_has_room, rx_contents.
  rewrite next_index, ring_contents_length by assumption.
  pose proof (ring_len_full _ _ _ Hh Ht) as Hf.
  pose proof (ring_len_range _ _ _ Hh Ht) as Hr.
  rewrite negb_true_iff, Z.eqb_neq. split; intros E; [| intros F]; 
    [ assert (ring_len (_rxSize s) (_rxHead s) (_rxTail s) <> _rxSize s - 1) by tauto | apply Hf in F ]; lia.
Qed.

Lemma tx_full_length (s : STM32BufferedSerial) :
  tx_wf s ->
  (tx_full s = true <-> Z.of_nat (length (tx_contents s)) = _txSize s - 1).
Proof.
  intros (HN & Hh & Ht & Hlen). unfold tx_full, tx_contents.
  rewrite next_index, ring_contents_length by assumption.
  rewrite Z.eqb_eq. symmetry. apply ring_len_full; assumption.
Qed.

Lemma tx_full_index (s : STM32BufferedSerial) :
  tx_wf s ->
  (tx_full s = true <-> (_txHead s + 1) mod _txSize s = _txTail s).
Proof.
  intros (HN & Hh & Ht & Hlen). unfold tx_full.
  rewrite next_index by assumption. apply Z.eqb_eq.
Qed.

(** [handleRxComplete]: the object part and the trace part. *)
Lemma handleRxComplete_self (c : Ctx T) :
  self (snd (handleRxComplete c)) =
  if rx_has_room (self c) then rx_enqueued (_rxTmp (self c)) (self c) else self c.
Proof.
  run_m. unfold rx_has_room, rx_enqueued.
  destruct (negb _); simpl;
    destruct (HAL_UART_Receive_IT (uart c)) as [r u]; destruct r; simpl;
    try reflexivity;
    destruct (HAL_UART_Receive_IT _) as [r2 u2]; reflexivity.
Qed.

Lemma handleRxComplete_trace (c : Ctx T) :
  exists (r : HAL_StatusTypeDef) (rest : list HalCall),
    hal_trace (snd (handleRxComplete c)) = hal_trace c ++ Call_Receive_IT r :: rest /\
    (r = HAL_OK /\ rest = [] \/
     r <> HAL_OK /\ exists r2, rest = [Call_UNLOCK; Call_AbortReceive; Call_Receive_IT r2]).
Proof.
  run_m.
  destruct (negb _); simpl;
    destruct (HAL_UART_Receive_IT (uart c)) as [r u]; exists r; destruct r; simpl;
    try (exists []; split; [reflexivity | left; split; reflexivity]);
    destruct (HAL_UART_Receive_IT _) as [r2 u2]; simpl;
    (eexists; split;
     [ rewrite <- !app_assoc; reflexivity
     | right; split; [discriminate | exists r2; reflexivity] ]).
Qed.

Lemma read_spec (c : Ctx T) :
  read c =
  if _rxTail (self c) =? _rxHead (self c) then (-1, c)
  else (byte_to_int (_rxBuf (self c) !!! Z.to_nat (_rxTail (self c))),
        with_self (rx_dequeued (self c)) c).
Proof. run_m. destruct (_ =? _); reflexivity. Qed.

(** The private [push] and [pop] repeat the ring part of
    [handleRxComplete] and the whole of [read]. *)
Lemma push_is_handleRxComplete_store (c : Ctx T) :
  self (snd (push (_rxTmp (self c)) c)) = self (snd (handleRxComplete c)).
Proof.
  rewrite handleRxComplete_self. run_m. unfold rx_has_room, rx_enqueued.
  destruct (negb _); reflexivity.
Qed.

Lemma pop_is_read (c : Ctx T) : pop c = read c.
Proof. run_m. rewrite (Z.eqb_sym (_rxHead (self c))). reflexivity. Qed.

Lemma handleTxComplete_spec (c : Ctx T) :
  handleTxComplete c =
  if _txTail (self c) =? _txHead (self c) then (tt, c)
  else
    let data := _txBuf (self c) !!! Z.to_nat (_txTail (self c)) in
    (tt, {| self := tx_dequeued (self c);
            uart := snd (HAL_UART_Transmit_IT data (uart c));
            hal_trace := hal_trace c ++
              [Call_Transmit_IT data (fst (HAL_UART_Transmit_IT data (uart c)))] |}).
Proof.
  run_m. destruct (_ =? _); simpl; [reflexivity |].
  destruct (HAL_UART_Transmit_IT _ _); reflexivity.
Qed.

Lemma startTxInterrupt_spec (c : Ctx T) : _startTxInterrupt c = handleTxComplete c.
Proof. run_m. destruct (_ =? _); reflexivity. Qed.

Lemma write_spec (d : byte) (c : Ctx T) :
  write d c =
  if tx_full (self c) then (-1, c)
  else if is_READY (gState (uart c))
       then (1, snd (_startTxInterrupt (with_self (tx_enqueued d (self c)) c)))
       else (1, with_self (tx_enqueued d (self c)) c).
Proof.
  run_m. unfold tx_full, with_self, tx_enqueued.
  destruct (_ =? _); [reflexivity |]. simpl.
  destruct (is_READY _); simpl; [| reflexivity].
  destruct (_ =? _); simpl; [reflexivity |].
  destruct (HAL_UART_Transmit_IT _ _); reflexivity.
Qed.

End MethodSpecs.

(** ** The count of readable bytes *)

Lemma readable_len_ring (s : STM32BufferedSerial) :
  0 <= _rxHead s < _rxSize s -> 0 <= _rxTail s < _rxSize s ->
  readable_len s = ring_len (_rxSize s) (_rxHead s) (_rxTail s).
Proof.
  intros Hh Ht. rewrite ring_len_cases by assumption. unfold readable_len.
  destruct (_rxHead s <? _rxTail s); lia.
Qed.

Lemma ring_len_plus_N (N head tail : Z) :
  (head - tail + N) mod N = ring_len N head tail.
Proof.
  unfold ring_len. replace (head - tail + N) with (head - tail + 1 * N) by lia.
  apply Z_mod_plus_full.
Qed.

(** C8, amended: for every index configuration with [head] and [tail] in
    [0, N), [readable_len()] is exactly the modulo formula
    [(head - tail + N) mod N]; its two branches are the two cases of
    that formula. *)
Theorem readable_len_is_modulo_formula (s : STM32BufferedSerial) :
  0 <= _rxHead s < _rxSize s ->
  0 <= _rxTail s < _rxSize s ->
  readable_len s = (_rxHead s - _rxTail s + _rxSize s) mod _rxSize s.
Proof.
  intros Hh Ht. rewrite ring_len_plus_N. apply readable_len_ring; assumption.
Qed.

Lemma readable_len_is_modulo_formula_witness :
  readable_len (with_rxHead 1 (with_rxTail 6
                  (new_serial 0x20000000 8 (replicate 8 x00) (replicate 8 x00)))) = 3
  /\ (1 - 6 + 8) mod 8 = 3.
Proof.
  split; [| reflexivity].
  rewrite readable_len_is_modulo_formula; simpl; [reflexivity | lia | lia].
Defined.

(** C8 as stated fails: no index configuration inside [0, N) makes the
    source's computation differ from the modulo formula. *)
Lemma readable_len_never_differs :
  ~ exists s : STM32BufferedSerial,
      0 <= _rxHead s < _rxSize s /\
      0 <= _rxTail s < _rxSize s /\
      readable_len s <> (_rxHead s - _rxTail s + _rxSize s) mod _rxSize s.
Proof.
  intros (s & Hh & Ht & Hne). apply Hne.
  rewrite ring_len_plus_N. apply readable_len_ring; assumption.
Qed.

(** ** The capacity invariant of the inbound ring *)

Section Capacity.
Context {T : Type} `{Transport T}.

Lemma byte_to_int_nonneg (b : byte) : 0 <= byte_to_int b.
Proof. unfold byte_to_int. lia. Qed.

Lemma rx_step_size (r : RxRun T) (op : RxOp) :
  _rxSize (self (run_ctx (rx_step r op))) = _rxSize (self (run_ctx r)).
Proof.
  destruct op as [b |]; simpl.
  - unfold rx_event, bind. simpl. rewrite handleRxComplete_self. simpl.
    destruct (rx_has_room _); reflexivity.
  - rewrite read_spec. destruct (_ =? _); reflexivity.
Qed.

Lemma rx_step_inv (r : RxRun T) (op : RxOp) : rx_inv r -> rx_inv (rx_step r op).
Proof.
  intros (HN & Hh & Ht & Hlen). unfold rx_inv.
  rewrite rx_step_size. split; [exact HN |].
  rewrite readable_len_ring in Hlen by assumption.
  destruct op as [b |]; simpl.
  - unfold rx_event, bind. simpl. rewrite handleRxComplete_self. simpl.
    change (rx_has_room (with_rxTmp b (self (run_ctx r))))
      with (rx_has_room (self (run_ctx r))).
    destruct (rx_has_room (self (run_ctx r))) eqn:Hroom; simpl.
    + unfold rx_has_room in Hroom. rewrite next_index in Hroom by assumption.
      apply negb_true_iff, Z.eqb_neq in Hroom.
      pose proof (succ_mod_range _ _ Hh) as Hr.
      unfold rx_enqueued. simpl. rewrite next_index by assumption.
      repeat split; try lia.
      rewrite readable_len_ring by (simpl; assumption). simpl.
      rewrite ring_len_push by assumption. lia.
    + repeat split; try lia. rewrite readable_len_ring by assumption. exact Hlen.
  - rewrite read_spec. destruct (Z.eqb_spec (_rxTail (self (run_ctx r))) (_rxHead (self (run_ctx r)))) as [E | E]; simpl.
    + repeat split; try lia. rewrite readable_len_ring by assumption. exact Hlen.
    + unfold rx_dequeued. simpl. rewrite next_index by assumption.
      pose proof (succ_mod_range _ _ Ht) as Hr.
      pose proof (byte_to_int_nonneg (_rxBuf (self (run_ctx r)) !!! Z.to_nat (_rxTail (self (run_ctx r))))) as Hb.
      destruct (Z.eqb_spec (byte_to_int (_rxBuf (self (run_ctx r)) !!! Z.to_nat (_rxTail (self (run_ctx r))))) (-1)) as [F | F]; [lia |].
      simpl. repeat split; try lia.
      rewrite readable_len_ring by (simpl; assumption). simpl.
      rewrite (ring_len_pop _ _ _ Hh Ht) in Hlen by congruence. lia.
Qed.

Lemma rx_fold_inv (ops : list RxOp) (r : RxRun T) :
  rx_inv r -> rx_inv (fold_left rx_step ops r).
Proof.
  revert r. induction ops as [| op ops IH]; intros r Hr; simpl; [exact Hr |].
  apply IH, rx_step_inv, Hr.
Qed.

(** C1: from the empty state of a port of capacity [N >= 2], after any
    sequence of inbound completions and reads, the ring holds at most
    [N - 1] bytes, both indices are in [0, N), and [readable_len()] is the
    number of pushes accepted minus the number of pops performed. *)
Theorem capacity_invariant (N : Z) (huart : ptr) (rxInit txInit : list byte)
    (u : T) (tr : list HalCall) (ops : list RxOp) :
  2 <= N < 65536 ->
  let r := rx_run {| self := new_serial huart N rxInit txInit;
                     uart := u; hal_trace := tr |} ops in
  let s := self (run_ctx r) in
  readable_len s <= N - 1 /\
  (0 <= _rxHead s < N /\ 0 <= _rxTail s < N) /\
  readable_len s = pushes_accepted r - pops_performed r.
Proof.
  intros HN r s.
  assert (Hinv : rx_inv r).
  { apply rx_fold_inv. unfold rx_inv. simpl. unfold readable_len. simpl. lia. }
  assert (Hsize : _rxSize s = N).
  { subst s r. unfold rx_run.
    enough (G : forall ops r0, _rxSize (self (run_ctx (fold_left rx_step ops r0)))
                               = _rxSize (self (run_ctx r0))) by (rewrite G; reflexivity).
    clear. intros ops. induction ops as [| op ops IH]; intros r0; simpl; [reflexivity |].
    rewrite IH. apply rx_step_size. }
  destruct Hinv as (_ & Hh & Ht & Hlen). fold s in Hh, Ht, Hlen.
  rewrite Hsize in Hh, Ht.
  split; [| split; [split; assumption | exact Hlen]].
  rewrite readable_len_ring by (rewrite Hsize; assumption).
  rewrite Hsize. pose proof (ring_len_range N _ _ Hh Ht). lia.
Qed.

End Capacity.

Lemma capacity_invariant_witness :
  2 <= 4 < 65536 /\
  let r := rx_run (fresh_ctx 4 sim_idle)
             [RxComplete x41; RxComplete x42; RxComplete x43; RxComplete x44;
              RxRead; RxRead; RxComplete x45; RxComplete x46; RxRead; RxRead;
              RxRead; RxRead] in
  let s := self (run_ctx r) in
  readable_len s <= 4 - 1 /\
  (0 <= _rxHead s < 4 /\ 0 <= _rxTail s < 4) /\
  readable_len s = pushes_accepted r - pops_performed r.
Proof.
  split; [lia |].
  apply (capacity_invariant 4 0x20000000 (replicate 4 x00) (replicate 4 x00)
           sim_idle []). lia.
Defined.

(** On the simulated transport the handler always leaves the receiver
    armed: the receive state is busy receiving, and one more request is
    outstanding when the first attempt is accepted, exactly one after
    the recovery path. *)
Lemma handleRxComplete_leaves_receiver_armed (c : Ctx SimUart) :
  sim_RxState (uart (snd (handleRxComplete c))) = HAL_UART_STATE_BUSY_RX /\
  sim_rx_outstanding (uart (snd (handleRxComplete c))) =
    (if is_HAL_OK (fst (HAL_UART_Receive_IT (uart c)))
     then S (sim_rx_outstanding (uart c)) else 1%nat) /\
  (1 <= sim_rx_outstanding (uart (snd (handleRxComplete c))))%nat.
Proof.
  destruct c as [s [i g rx lock n] tr]. run_m. simpl.
  unfold sim_Receive_IT. simpl.
  destruct rx, lock; simpl; destruct (negb _); simpl;
    (split; [reflexivity | split; [reflexivity | lia]]).
Qed.

(** ** The transfer engine *)

Section Engine.
Context {T : Type} `{Transport T}.

(** C3: when the outbound ring is full, that is [(head + 1) mod N == tail],
    or equivalently it holds [N - 1] bytes, [write(byte)] returns [-1]
    and nothing changes: not the array, not the indices, not the handle,
    and no call is made into the HAL. *)
Theorem write_full_is_rejected (c : Ctx T) (d : byte) :
  tx_wf (self c) ->
  (_txHead (self c) + 1) mod _txSize (self c) = _txTail (self c) \/
  Z.of_nat (length (tx_contents (self c))) = _txSize (self c) - 1 ->
  write d c = (-1, c).
Proof.
  intros Hwf Hfull. rewrite write_spec.
  assert (E : tx_full (self c) = true).
  { destruct Hfull as [F | F];
      [apply (tx_full_index _ Hwf) | apply (tx_full_length _ Hwf)]; exact F. }
  rewrite E. reflexivity.
Qed.

(** The transport side of [handleRxComplete]: which calls reach the
    HAL, with which answers, and the handle state they leave. *)
Lemma handleRxComplete_transport (c : Ctx T) :
  let r1 := HAL_UART_Receive_IT (uart c) in
  let r2 := HAL_UART_Receive_IT (HAL_UART_AbortReceive (__HAL_UNLOCK (snd r1))) in
  if is_HAL_OK (fst r1)
  then uart (snd (handleRxComplete c)) = snd r1 /\
       hal_trace (snd (handleRxComplete c)) = hal_trace c ++ [Call_Receive_IT HAL_OK]
  else uart (snd (handleRxComplete c)) = snd r2 /\
       hal_trace (snd (handleRxComplete c)) =
         hal_trace c ++
         [Call_Receive_IT (fst r1); Call_UNLOCK; Call_AbortReceive;
          Call_Receive_IT (fst r2)].
Proof.
  run_m.
  destruct (negb _); simpl;
    destruct (HAL_UART_Receive_IT (uart c)) as [r u]; destruct r; simpl;
    try (split; reflexivity);
    destruct (HAL_UART_Receive_IT _) as [r2 u2]; simpl;
    (split; [reflexivity | rewrite <- !app_assoc; reflexivity]).
Qed.

(** C4: [handleRxComplete] appends the staged byte [_rxTmp] and advances
    [head] by one when the inbound ring has room, leaves the object as
    it is when the ring is full, and in both cases issues a new one-unit
    receive request to the transport.  When the transport accepts it,
    that request is the only HAL call and the handle is in the state the
    request left; otherwise the handler unlocks, aborts and asks exactly
    once more, and the handle is in the state that second request left.
    On the simulated transport ([cs]) the receiver is armed afterwards
    in every case: busy receiving, with one request more outstanding
    after an accepted first attempt and exactly one after the retry. *)
Theorem handleRxComplete_stores_and_rearms (c : Ctx T) (cs : Ctx SimUart) :
  rx_wf (self c) ->
  let c' := snd (handleRxComplete c) in
  let r1 := HAL_UART_Receive_IT (uart c) in
  let r2 := HAL_UART_Receive_IT (HAL_UART_AbortReceive (__HAL_UNLOCK (snd r1))) in
  (if rx_has_room (self c)
   then rx_contents (self c') = rx_contents (self c) ++ [_rxTmp (self c)] /\
        _rxHead (self c') = (_rxHead (self c) + 1) mod _rxSize (self c) /\
        _rxTail (self c') = _rxTail (self c)
   else self c' = self c) /\
  (rx_has_room (self c) = true <->
   Z.of_nat (length (rx_contents (self c))) < _rxSize (self c) - 1) /\
  (exists (r : HAL_StatusTypeDef) (rest : list HalCall),
     hal_trace c' = hal_trace c ++ Call_Receive_IT r :: rest) /\
  (if is_HAL_OK (fst r1)
   then uart c' = snd r1 /\
        hal_trace c' = hal_trace c ++ [Call_Receive_IT HAL_OK]
   else uart c' = snd r2 /\
        hal_trace c' =
          hal_trace c ++
          [Call_Receive_IT (fst r1); Call_UNLOCK; Call_AbortReceive;
           Call_Receive_IT (fst r2)]) /\
  (sim_RxState (uart (snd (handleRxComplete cs))) = HAL_UART_STATE_BUSY_RX /\
   sim_rx_outstanding (uart (snd (handleRxComplete cs))) =
     (if is_HAL_OK (fst (HAL_UART_Receive_IT (uart cs)))
      then S (sim_rx_outstanding (uart cs)) else 1%nat) /\
   (1 <= sim_rx_outstanding (uart (snd (handleRxComplete cs))))%nat).
Proof.
  intros Hwf c' r1 r2. subst c' r1 r2.
  split; [| split; [| split; [| split]]].
  - rewrite handleRxComplete_self.
    destruct (rx_has_room (self c)) eqn:Hroom; [| reflexivity].
    destruct (rx_enqueued_spec (_rxTmp (self c)) (self c) Hwf Hroom)
      as (Hc & _ & Hh & Ht).
    auto.
  - apply rx_has_room_length, Hwf.
  - destruct (handleRxComplete_trace c) as (r & rest & Htr & _).
    exists r, rest. exact Htr.
  - apply handleRxComplete_transport.
  - apply handleRxComplete_leaves_receiver_armed.
Qed.

Lemma transmitted_app (l1 l2 : list HalCall) :
  transmitted (l1 ++ l2) = transmitted l1 ++ transmitted l2.
Proof.
  induction l1 as [| e l1 IH]; simpl; [reflexivity |].
  destruct e; simpl; rewrite IH; reflexivity.
Qed.

Lemma handleTxComplete_dequeue (c : Ctx T) :
  tx_wf (self c) -> tx_dequeue_spec c (snd (handleTxComplete c)).
Proof.
  intros Hwf. rewrite handleTxComplete_spec. unfold tx_dequeue_spec.
  destruct (Z.eqb_spec (_txTail (self c)) (_txHead (self c))) as [E | E].
  - destruct Hwf as (HN & Hh & Ht & Hlen).
    unfold tx_contents. symmetry in E.
    rewrite (proj2 (ring_contents_empty _ _ _ _ Hh Ht) E). reflexivity.
  - destruct (tx_dequeued_spec (self c) Hwf E) as (Hc & _ & Htail & Hhead).
    rewrite Hc. simpl. eexists. repeat split; assumption.
Qed.

Lemma handleRxComplete_no_transmit (c : Ctx T) :
  transmitted (hal_trace (snd (handleRxComplete c))) = transmitted (hal_trace c).
Proof.
  destruct (handleRxComplete_trace c) as (r & rest & -> & [[_ ->] | [_ [r2 ->]]]);
    rewrite transmitted_app; simpl; apply app_nil_r.
Qed.

(** C6: every transmit request carries the byte dequeued from the front
    of the outbound ring.  [handleTxComplete] and [_startTxInterrupt] do
    nothing on an empty ring and otherwise dequeue the oldest byte into
    one request; [write] makes no request when it refuses the byte or
    when the transport is not ready, and otherwise makes the kick-off
    dequeue on the ring that now ends with the byte written; the
    inbound methods make no transmit request. *)
Theorem transmit_requests_dequeue_oldest (c : Ctx T) (d : byte) :
  tx_wf (self c) ->
  tx_dequeue_spec c (snd (handleTxComplete c)) /\
  tx_dequeue_spec c (snd (_startTxInterrupt c)) /\
  (let c1 := with_self (tx_enqueued d (self c)) c in
   if tx_full (self c) then snd (write d c) = c
   else tx_contents (self c1) = tx_contents (self c) ++ [d] /\
        if is_READY (gState (uart c))
        then tx_dequeue_spec c1 (snd (write d c))
        else snd (write d c) = c1) /\
  transmitted (hal_trace (snd (handleRxComplete c))) = transmitted (hal_trace c) /\
  transmitted (hal_trace (snd (begin c))) = transmitted (hal_trace c) /\
  transmitted (hal_trace (snd (read c))) = transmitted (hal_trace c).
Proof.
  intros Hwf. split; [| split; [| split; [| split; [| split]]]].
  - apply handleTxComplete_dequeue, Hwf.
  - rewrite startTxInterrupt_spec. apply handleTxComplete_dequeue, Hwf.
  - rewrite write_spec. destruct (tx_full (self c)) eqn:Hfull; simpl; [reflexivity |].
    destruct (tx_enqueued_spec d (self c) Hwf Hfull) as (Hc & Hwf1 & _).
    split; [exact Hc |].
    destruct (is_READY (gState (uart c))); simpl; [| reflexivity].
    rewrite startTxInterrupt_spec. apply handleTxComplete_dequeue. exact Hwf1.
  - apply handleRxComplete_no_transmit.
  - run_m. destruct (HAL_UART_Receive_IT (uart c)). simpl.
    rewrite transmitted_app. simpl. apply app_nil_r.
  - rewrite read_spec. destruct (_ =? _); reflexivity.
Qed.

End Engine.

Ltac wf_compute :=
  repeat split; vm_compute; (reflexivity || discriminate).

Lemma write_full_is_rejected_witness :
  _txSize (self full4_ctx) = 4 /\
  Z.of_nat (length (tx_contents (self full4_ctx))) = 3 /\
  write x64 full4_ctx = (-1, full4_ctx).
Proof.
  split; [reflexivity | split; [reflexivity |]].
  apply write_full_is_rejected; [wf_compute | right; reflexivity].
Defined.

Lemma handleRxComplete_stores_and_rearms_witness :
  rx_wf (self staged_ctx) /\
  rx_contents (self (snd (handleRxComplete staged_ctx))) = [x41] /\
  (exists (r : HAL_StatusTypeDef) (rest : list HalCall),
     hal_trace (snd (handleRxComplete staged_ctx)) =
     hal_trace staged_ctx ++ Call_Receive_IT r :: rest) /\
  hal_trace (snd (handleRxComplete staged_ctx)) = [Call_Receive_IT HAL_OK] /\
  uart (snd (handleRxComplete staged_ctx))
    = snd (HAL_UART_Receive_IT (uart staged_ctx)) /\
  sim_rx_outstanding (uart (snd (handleRxComplete (fresh_ctx 4 sim_locked)))) = 1%nat.
Proof.
  assert (Hwf : rx_wf (self staged_ctx)) by wf_compute.
  split; [exact Hwf |].
  destruct (handleRxComplete_stores_and_rearms staged_ctx (fresh_ctx 4 sim_locked) Hwf)
    as (Hs & _ & Htr & Hpath & _ & Hout & _).
  change (rx_has_room (self staged_ctx)) with true in Hs.
  change (is_HAL_OK (fst (HAL_UART_Receive_IT (uart staged_ctx)))) with true in Hpath.
  destruct Hs as (Hc & _). destruct Hpath as (Hu & Ht).
  split; [rewrite Hc; reflexivity |].
  split; [exact Htr |].
  split; [exact Ht |].
  split; [exact Hu | exact Hout].
Defined.

Lemma transmit_requests_dequeue_oldest_witness :
  tx_wf (self full4_ctx) /\
  tx_dequeue_spec full4_ctx (snd (handleTxComplete full4_ctx)) /\
  transmitted (hal_trace (snd (handleTxComplete full4_ctx))) = [x61].
Proof.
  assert (Hwf : tx_wf (self full4_ctx)) by wf_compute.
  split; [exact Hwf |].
  split; [| reflexivity].
  exact (proj1 (transmit_requests_dequeue_oldest full4_ctx x00 Hwf)).
Defined.

(** ** Busy recovery on the simulated transport *)

(** C5: when the first re-arm request of [handleRxComplete] is rejected,
    the handler unlocks the handle, aborts the receive and asks once
    more: the HAL sees exactly these four calls, the second request is
    accepted, and afterwards exactly one receive request is
    outstanding. *)
Theorem busy_rearm_retries_once (c : Ctx SimUart) :
  fst (HAL_UART_Receive_IT (uart c)) <> HAL_OK ->
  let c' := snd (handleRxComplete c) in
  hal_trace c' =
    hal_trace c ++
    [Call_Receive_IT HAL_BUSY; Call_UNLOCK; Call_AbortReceive; Call_Receive_IT HAL_OK] /\
  uart c' = snd (HAL_UART_Receive_IT
                   (HAL_UART_AbortReceive (__HAL_UNLOCK (uart c)))) /\
  receive_requests (hal_trace c') = (receive_requests (hal_trace c) + 2)%nat /\
  sim_rx_outstanding (uart c') = 1%nat.
Proof.
  intros Hbusy c'. subst c'.
  assert (Hreq : forall l, receive_requests (l ++
            [Call_Receive_IT HAL_BUSY; Call_UNLOCK; Call_AbortReceive;
             Call_Receive_IT HAL_OK]) = (receive_requests l + 2)%nat).
  { induction l as [| e l IH]; simpl; [reflexivity |].
    destruct e; simpl; rewrite IH; reflexivity. }
  destruct c as [s [i g rx lock n] tr]. revert Hbusy. run_m. simpl.
  unfold sim_Receive_IT. simpl.
  destruct rx, lock; simpl; intros Hbusy;
    try (exfalso; apply Hbusy; reflexivity);
    destruct (negb _); simpl; rewrite <- !app_assoc; simpl;
    (split; [reflexivity | split; [reflexivity | split; [apply Hreq | reflexivity]]]).
Qed.

Lemma busy_rearm_retries_once_witness :
  fst (HAL_UART_Receive_IT (uart (fresh_ctx 4 sim_locked))) = HAL_BUSY /\
  hal_trace (snd (handleRxComplete (fresh_ctx 4 sim_locked))) =
    [Call_Receive_IT HAL_BUSY; Call_UNLOCK; Call_AbortReceive; Call_Receive_IT HAL_OK] /\
  sim_rx_outstanding (uart (snd (handleRxComplete (fresh_ctx 4 sim_locked)))) = 1%nat.
Proof.
  split; [reflexivity |].
  assert (Hbusy : fst (HAL_UART_Receive_IT (uart (fresh_ctx 4 sim_locked))) <> HAL_OK)
    by (vm_compute; discriminate).
  destruct (busy_rearm_retries_once (fresh_ctx 4 sim_locked) Hbusy) as (Htr & _ & _ & Hout).
  split; [exact Htr | exact Hout].
Defined.

(** ** Partial writes *)

Section PartialWrite.
Context {T : Type} `{Transport T}.

Lemma tx_contents_bound (s : STM32BufferedSerial) :
  tx_wf s -> Z.of_nat (length (tx_contents s)) <= _txSize s - 1.
Proof.
  intros (HN & Hh & Ht & Hlen). unfold tx_contents.
  rewrite ring_contents_length by assumption.
  pose proof (ring_len_range _ _ _ Hh Ht). lia.
Qed.

(** With the transport busy no kick-off happens, so the loop only
    enqueues: it takes bytes until the input or the free slots run out. *)
Lemma write_loop_busy (data : list byte) :
  forall (written : Z) (c : Ctx T),
    tx_wf (self c) ->
    is_READY (gState (uart c)) = false ->
    let k := _txSize (self c) - 1 - Z.of_nat (length (tx_contents (self c))) in
    let n := Z.min (Z.of_nat (length data)) k in
    let c' := snd (write_loop data written c) in
    fst (write_loop data written c) = written + n /\
    tx_contents (self c') = tx_contents (self c) ++ take (Z.to_nat n) data /\
    uart c' = uart c /\
    hal_trace c' = hal_trace c.
Proof.
  induction data as [| d rest IH]; intros written c Hwf Hbusy k n c'.
  - pose proof (tx_contents_bound _ Hwf) as Hb.
    subst c' n k. simpl. unfold ret. simpl.
    replace (Z.min 0 _) with 0 by lia.
    rewrite app_nil_r. repeat split; lia.
  - pose proof (tx_contents_bound _ Hwf) as Hb.
    subst c'. simpl. unfold bind. rewrite write_spec.
    destruct (tx_full (self c)) eqn:Hfull.
    + apply (tx_full_length _ Hwf) in Hfull.
      simpl. unfold ret. simpl.
      assert (n = 0) as -> by (subst n k; simpl length; lia).
      simpl. rewrite app_nil_r. repeat split; lia.
    + rewrite Hbusy. simpl.
      destruct (tx_enqueued_spec d (self c) Hwf Hfull) as (Hc & Hwf1 & _).
      assert (Hnf : Z.of_nat (length (tx_contents (self c))) <> _txSize (self c) - 1).
      { intros F. apply (tx_full_length _ Hwf) in F. congruence. }
      specialize (IH (written + 1) (with_self (tx_enqueued d (self c)) c) Hwf1 Hbusy).
      simpl in IH. rewrite Hc, length_app in IH. simpl in IH.
      destruct IH as (Hr & Hcont & Hu & Htr).
      rewrite Hr, Hcont, Hu, Htr.
      assert (En : n = 1 + Z.min (Z.of_nat (length rest))
                         (_txSize (self c) - 1 -
                          Z.of_nat (length (tx_contents (self c)) + 1)))
        by (subst n k; simpl length; lia).
      rewrite En.
      replace (Z.to_nat (1 + Z.min (Z.of_nat (length rest))
                 (_txSize (self c) - 1 -
                  Z.of_nat (length (tx_contents (self c)) + 1))))
        with (S (Z.to_nat (Z.min (Z.of_nat (length rest))
                 (_txSize (self c) - 1 -
                  Z.of_nat (length (tx_contents (self c)) + 1))))) by lia.
      simpl. rewrite <- app_assoc. simpl. repeat split; lia.
Qed.

(** C7, amended: while the transport is not ready, so that [write] makes
    no kick-off dequeue, [write(data, len)] on a ring with [k] free slots
    returns [min(len, k)] and enqueues exactly the first [min(len, k)]
    bytes of [data], in order, without calling the HAL. *)
Theorem write_buf_partial (c : Ctx T) (data : list byte) (len : Z) :
  tx_wf (self c) ->
  is_READY (gState (uart c)) = false ->
  0 <= len <= Z.of_nat (length data) ->
  let k := _txSize (self c) - 1 - Z.of_nat (length (tx_contents (self c))) in
  let c' := snd (write_buf data len c) in
  fst (write_buf data len c) = Z.min len k /\
  tx_contents (self c') = tx_contents (self c) ++ take (Z.to_nat (Z.min len k)) data /\
  hal_trace c' = hal_trace c.
Proof.
  intros Hwf Hbusy Hlen k c'. subst c'. unfold write_buf.
  destruct (write_loop_busy (take (Z.to_nat len) data) 0 c Hwf Hbusy)
    as (Hr & Hc & _ & Htr).
  rewrite length_take in Hr, Hc.
  replace (Z.of_nat (Z.to_nat len `min` length data)) with len in Hr, Hc by lia.
  fold k in Hr, Hc.
  rewrite Hr, Hc, Htr. rewrite take_take.
  replace (Z.to_nat (Z.min len k) `min` Z.to_nat len)%nat
    with (Z.to_nat (Z.min len k)) by lia.
  repeat split; lia.
Qed.

End PartialWrite.

Lemma write_buf_partial_witness :
  _txSize (self (fresh_ctx 5 sim_tx_busy)) - 1
    - Z.of_nat (length (tx_contents (self (fresh_ctx 5 sim_tx_busy)))) = 4 /\
  fst (write_buf ten_bytes 10 (fresh_ctx 5 sim_tx_busy)) = 4 /\
  tx_contents (self (snd (write_buf ten_bytes 10 (fresh_ctx 5 sim_tx_busy))))
    = [x30; x31; x32; x33].
Proof.
  split; [reflexivity |].
  assert (Hwf : tx_wf (self (fresh_ctx 5 sim_tx_busy))) by wf_compute.
  assert (Hbusy : is_READY (gState (uart (fresh_ctx 5 sim_tx_busy))) = false)
    by reflexivity.
  destruct (write_buf_partial (fresh_ctx 5 sim_tx_busy) ten_bytes 10 Hwf Hbusy)
    as (Hr & Hc & _); [vm_compute; split; discriminate |].
  split; [exact Hr | exact Hc].
Defined.

(** C7 as stated fails on an idle transport: the first accepted byte is
    dequeued at once by the kick-off inside [write], so a fresh
    capacity-5 port (four free slots) accepts five of ten bytes. *)
Lemma write_buf_idle_accepts_one_more :
  _txSize (self (fresh_ctx 5 sim_idle)) - 1
    - Z.of_nat (length (tx_contents (self (fresh_ctx 5 sim_idle)))) = 4 /\
  Z.of_nat (length ten_bytes) = 10 /\
  fst (write_buf ten_bytes 10 (fresh_ctx 5 sim_idle)) = 5 /\
  fst (write_buf ten_bytes 10 (fresh_ctx 5 sim_idle)) <> Z.min 10 4.
Proof. repeat split. vm_compute. discriminate. Qed.

(** ** FIFO order *)

Section Fifo.
Context {T : Type} `{Transport T}.

Lemma run_all_cons_fst {A : Type} (m : M T A) (ms : list (M T A)) (c : Ctx T) :
  fst (run_all (m :: ms) c) = fst (m c) :: fst (run_all ms (snd (m c))).
Proof.
  simpl. unfold bind, ret. destruct (m c) as [a c1]. simpl.
  destruct (run_all ms c1). reflexivity.
Qed.

Lemma run_all_cons_snd {A : Type} (m : M T A) (ms : list (M T A)) (c : Ctx T) :
  snd (run_all (m :: ms) c) = snd (run_all ms (snd (m c))).
Proof.
  simpl. unfold bind, ret. destruct (m c) as [a c1]. simpl.
  destruct (run_all ms c1). reflexivity.
Qed.

Lemma run_all3_fst {A : Type} (m1 m2 m3 : M T A) (c : Ctx T) :
  fst (run_all [m1; m2; m3] c) =
  [fst (m1 c); fst (m2 (snd (m1 c))); fst (m3 (snd (m2 (snd (m1 c)))))].
Proof. rewrite !run_all_cons_fst. reflexivity. Qed.

Lemma run_all3_snd {A : Type} (m1 m2 m3 : M T A) (c : Ctx T) :
  snd (run_all [m1; m2; m3] c) = snd (m3 (snd (m2 (snd (m1 c))))).
Proof. rewrite !run_all_cons_snd. reflexivity. Qed.

Lemma rx_event_spec (b : byte) (c : Ctx T) :
  rx_wf (self c) -> rx_has_room (self c) = true ->
  rx_wf (self (snd (rx_event b c))) /\
  rx_contents (self (snd (rx_event b c))) = rx_contents (self c) ++ [b] /\
  _rxSize (self (snd (rx_event b c))) = _rxSize (self c).
Proof.
  intros Hwf Hroom. unfold rx_event, bind, hw_store_rx, get_self, put_self. simpl.
  rewrite handleRxComplete_self. simpl.
  change (rx_has_room (with_rxTmp b (self c))) with (rx_has_room (self c)).
  rewrite Hroom.
  destruct (rx_enqueued_spec b (with_rxTmp b (self c)) Hwf Hroom) as (Hc & Hwf' & _).
  split; [exact Hwf' | split; [exact Hc | reflexivity]].
Qed.

(** Inbound completions append to the contents, in call order. *)
Lemma rx_events_spec (bs : list byte) :
  forall c : Ctx T,
    rx_wf (self c) ->
    Z.of_nat (length (rx_contents (self c)) + length bs) <= _rxSize (self c) - 1 ->
    rx_wf (self (snd (run_all (map rx_event bs) c))) /\
    rx_contents (self (snd (run_all (map rx_event bs) c))) = rx_contents (self c) ++ bs.
Proof.
  induction bs as [| b bs IH]; intros c Hwf Hfit.
  - simpl. rewrite app_nil_r. split; [exact Hwf | reflexivity].
  - simpl length in Hfit.
    assert (Hroom : rx_has_room (self c) = true)
      by (apply (rx_has_room_length _ Hwf); lia).
    destruct (rx_event_spec b c Hwf Hroom) as (Hwf1 & Hc1 & Hsz1).
    change (map rx_event (b :: bs)) with (rx_event b :: map rx_event bs).
    rewrite run_all_cons_snd.
    destruct (IH (snd (rx_event b c)) Hwf1) as (Hwf2 & Hc2).
    { rewrite Hc1, Hsz1, length_app. simpl. lia. }
    split; [exact Hwf2 |]. rewrite Hc2, Hc1, <- app_assoc. reflexivity.
Qed.

(** Reads return the contents from the front. *)
Lemma reads_spec (n : nat) :
  forall c : Ctx T,
    rx_wf (self c) ->
    (n <= length (rx_contents (self c)))%nat ->
    fst (run_all (replicate n read) c) = map byte_to_int (take n (rx_contents (self c))).
Proof.
  induction n as [| n IH]; intros c Hwf Hn; [reflexivity |].
  change (replicate (S n) read) with (read :: replicate n (read (T:=T))).
  rewrite run_all_cons_fst, read_spec.
  destruct (Z.eqb_spec (_rxTail (self c)) (_rxHead (self c))) as [E | E].
  - exfalso. destruct Hwf as (HN & Hh & Ht & Hlen).
    symmetry in E. apply (ring_contents_empty (_rxBuf (self c)) _ _ _ Hh Ht) in E.
    unfold rx_contents in Hn. rewrite E in Hn. simpl in Hn. lia.
  - destruct (rx_dequeued_spec (self c) Hwf E) as (Hc & Hwf1 & _).
    simpl fst. simpl snd. rewrite Hc. simpl. f_equal.
    apply (IH (with_self (rx_dequeued (self c)) c) Hwf1).
    rewrite Hc in Hn. simpl in Hn. simpl. lia.
Qed.

Lemma handleTx_fifo (c : Ctx T) :
  tx_wf (self c) ->
  let c' := snd (handleTxComplete c) in
  tx_wf (self c') /\
  _txSize (self c') = _txSize (self c) /\
  transmitted (hal_trace c') ++ tx_contents (self c') =
    transmitted (hal_trace c) ++ tx_contents (self c) /\
  length (tx_contents (self c')) = pred (length (tx_contents (self c))).
Proof.
  intros Hwf c'. subst c'. rewrite handleTxComplete_spec.
  destruct (Z.eqb_spec (_txTail (self c)) (_txHead (self c))) as [E | E]; simpl.
  - split; [exact Hwf | split; [reflexivity | split; [reflexivity |]]].
    destruct Hwf as (HN & Hh & Ht & Hlen). symmetry in E.
    apply (ring_contents_empty (_txBuf (self c)) _ _ _ Hh Ht) in E.
    unfold tx_contents. rewrite E. reflexivity.
  - destruct (tx_dequeued_spec (self c) Hwf E) as (Hc & Hwf1 & _).
    split; [exact Hwf1 | split; [reflexivity |]].
    rewrite Hc, transmitted_app. simpl. rewrite <- app_assoc. split; reflexivity.
Qed.

Lemma write_fifo (c : Ctx T) (d : byte) :
  tx_wf (self c) -> tx_full (self c) = false ->
  let c' := snd (write d c) in
  fst (write d c) = 1 /\
  tx_wf (self c') /\
  _txSize (self c') = _txSize (self c) /\
  transmitted (hal_trace c') ++ tx_contents (self c') =
    transmitted (hal_trace c) ++ tx_contents (self c) ++ [d] /\
  (length (tx_contents (self c')) <= S (length (tx_contents (self c))))%nat.
Proof.
  intros Hwf Hfull c'. subst c'. rewrite write_spec, Hfull.
  destruct (tx_enqueued_spec d (self c) Hwf Hfull) as (Hc & Hwf1 & _).
  destruct (is_READY (gState (uart c))); simpl.
  - rewrite startTxInterrupt_spec.
    destruct (handleTx_fifo (with_self (tx_enqueued d (self c)) c) Hwf1)
      as (Hwf2 & Hsz & Hsent & Hlen).
    simpl in Hsz, Hsent, Hlen. rewrite Hc in Hsent, Hlen.
    rewrite length_app in Hlen. simpl in Hlen.
    split; [reflexivity |].
    split; [exact Hwf2 | split; [exact Hsz | split; [exact Hsent | lia]]].
  - rewrite Hc, length_app. simpl.
    split; [reflexivity |].
    split; [exact Hwf1 | split; [reflexivity | split; [reflexivity | lia]]].
Qed.

Lemma tx_not_full (s : STM32BufferedSerial) (n : nat) :
  tx_wf s -> (length (tx_contents s) <= n)%nat -> Z.of_nat n < _txSize s - 1 ->
  tx_full s = false.
Proof.
  intros Hwf Hn HN. destruct (tx_full s) eqn:E; [| reflexivity].
  apply (tx_full_length _ Hwf) in E. lia.
Qed.

(** The state after [n] transmit completions. *)
Lemma tx_completions_state (n : nat) :
  forall c : Ctx T,
    tx_wf (self c) ->
    tx_wf (self (snd (run_all (replicate n handleTxComplete) c))) /\
    transmitted (hal_trace (snd (run_all (replicate n handleTxComplete) c)))
      = transmitted (hal_trace c) ++ take n (tx_contents (self c)) /\
    tx_contents (self (snd (run_all (replicate n handleTxComplete) c)))
      = drop n (tx_contents (self c)).
Proof.
  induction n as [| n IH]; intros c Hwf.
  - simpl. rewrite app_nil_r, drop_0. split; [exact Hwf | split; reflexivity].
  - change (replicate (S n) handleTxComplete)
      with (handleTxComplete :: replicate n (handleTxComplete (T:=T))).
    rewrite run_all_cons_snd.
    destruct (handleTx_fifo c Hwf) as (W1 & _).
    pose proof (handleTxComplete_dequeue c Hwf) as Hd. unfold tx_dequeue_spec in Hd.
    destruct (IH (snd (handleTxComplete c)) W1) as (W & S1 & C).
    split; [exact W |]. rewrite S1, C.
    destruct (tx_contents (self c)) as [| b q] eqn:Hq.
    + rewrite Hd, Hq. rewrite take_nil, drop_nil. split; reflexivity.
    + destruct Hd as (r & Htr & Hc & _). rewrite Htr, Hc, transmitted_app. simpl.
      rewrite <- app_assoc. split; reflexivity.
Qed.

(** From an empty ring of capacity at least 4, at any index position:
    three completions then three reads return the three bytes; three
    writes then three completions hand the three bytes over, whichever
    of the writes made the kick-off dequeue. *)
Lemma fifo_from_empty (c : Ctx T) (a b d : byte) :
  port_wf (self c) ->
  (_rxHead (self c) = _rxTail (self c) -> 4 <= _rxSize (self c) ->
   fst (run_all [read; read; read]
          (snd (run_all [rx_event a; rx_event b; rx_event d] c)))
   = [byte_to_int a; byte_to_int b; byte_to_int d]) /\
  (_txHead (self c) = _txTail (self c) -> 4 <= _txSize (self c) ->
   let w := run_all [write a; write b; write d] c in
   let c' := snd (run_all [handleTxComplete; handleTxComplete; handleTxComplete]
                    (snd w)) in
   fst w = [1; 1; 1] /\
   transmitted (hal_trace c') = transmitted (hal_trace c) ++ [a; b; d] /\
   tx_contents (self c') = []).
Proof.
  intros [Hrx Htx]. split.
  - intros Hempty HN.
    assert (Hq : rx_contents (self c) = []).
    { destruct Hrx as (_ & Hh & Ht & _).
      apply (ring_contents_empty _ _ _ _ Hh Ht), Hempty. }
    destruct (rx_events_spec [a; b; d] c Hrx) as (Hwf3 & Hc3).
    { rewrite Hq. simpl. lia. }
    change [rx_event a; rx_event b; rx_event d] with (map (rx_event (T:=T)) [a; b; d]).
    change [read; read; read] with (replicate 3 (read (T:=T))).
    rewrite reads_spec; [| exact Hwf3 | rewrite Hc3, Hq; simpl; lia].
    rewrite Hc3, Hq. reflexivity.
  - intros Hempty HN w c'.
    assert (Hq : tx_contents (self c) = []).
    { destruct Htx as (_ & Hh & Ht & _).
      apply (ring_contents_empty _ _ _ _ Hh Ht), Hempty. }
    subst c' w. rewrite run_all3_fst, !run_all3_snd.
    destruct (write_fifo c a Htx) as (R1 & W1 & S1 & F1 & L1).
    { apply (tx_not_full _ 0 Htx); [rewrite Hq; simpl |]; lia. }
    rewrite Hq in F1, L1. simpl in L1.
    destruct (write_fifo _ b W1) as (R2 & W2 & S2 & F2 & L2).
    { apply (tx_not_full _ 1 W1); [| rewrite S1]; lia. }
    destruct (write_fifo _ d W2) as (R3 & W3 & S3 & F3 & L3).
    { apply (tx_not_full _ 2 W2); [| rewrite S2, S1]; lia. }
    destruct (handleTx_fifo _ W3) as (W4 & _ & F4 & L4).
    destruct (handleTx_fifo _ W4) as (W5 & _ & F5 & L5).
    destruct (handleTx_fifo _ W5) as (W6 & _ & F6 & L6).
    match type of L6 with
    | length (tx_contents ?s6) = _ =>
        assert (E6 : tx_contents s6 = [])
          by (apply length_zero_iff_nil; lia)
    end.
    split; [rewrite R1, R2, R3; reflexivity |].
    split; [| exact E6].
    rewrite E6, app_nil_r in F6.
    rewrite F6, F5, F4, F3, app_assoc, F2, !app_assoc, F1.
    rewrite <- !app_assoc. reflexivity.
Qed.

(** Inbound, from any ring with three free slots: the three bytes go
    behind the bytes already queued, and reads return the queue from
    its front. *)
Lemma rx_fifo_general (c : Ctx T) (a b d : byte) :
  rx_wf (self c) ->
  Z.of_nat (length (rx_contents (self c))) + 3 <= _rxSize (self c) - 1 ->
  let c3 := snd (run_all [rx_event a; rx_event b; rx_event d] c) in
  rx_contents (self c3) = rx_contents (self c) ++ [a; b; d] /\
  fst (run_all [read; read; read] c3)
    = map byte_to_int (take 3 (rx_contents (self c) ++ [a; b; d])) /\
  fst (run_all (replicate (length (rx_contents (self c)) + 3) read) c3)
    = map byte_to_int (rx_contents (self c) ++ [a; b; d]).
Proof.
  intros Hwf Hfit c3. subst c3.
  change [rx_event a; rx_event b; rx_event d] with (map (rx_event (T:=T)) [a; b; d]).
  change [read; read; read] with (replicate 3 (read (T:=T))).
  destruct (rx_events_spec [a; b; d] c Hwf) as (Hwf3 & Hc3); [simpl; lia |].
  split; [exact Hc3 |].
  rewrite !reads_spec by (try exact Hwf3; rewrite Hc3, length_app; simpl; lia).
  rewrite Hc3. split; [reflexivity |].
  replace (length (rx_contents (self c)) + 3)%nat
    with (length (rx_contents (self c) ++ [a; b; d])) by (rewrite length_app; reflexivity).
  rewrite firstn_all. reflexivity.
Qed.

(** Outbound, from any ring with three free slots and on any transport:
    the three writes are accepted; at every later point the bytes handed
    over followed by the bytes queued are the earlier ones followed by
    the three, and once enough completions have come all of them have
    been handed over, older bytes first. *)
Lemma tx_fifo_general (c : Ctx T) (a b d : byte) (n : nat) :
  tx_wf (self c) ->
  Z.of_nat (length (tx_contents (self c))) + 3 <= _txSize (self c) - 1 ->
  let w := run_all [write a; write b; write d] c in
  let c' := snd (run_all (replicate n handleTxComplete) (snd w)) in
  fst w = [1; 1; 1] /\
  transmitted (hal_trace c') ++ tx_contents (self c')
    = transmitted (hal_trace c) ++ tx_contents (self c) ++ [a; b; d] /\
  ((length (tx_contents (self c)) + 3 <= n)%nat ->
   transmitted (hal_trace c')
     = transmitted (hal_trace c) ++ tx_contents (self c) ++ [a; b; d] /\
   tx_contents (self c') = []).
Proof.
  intros Htx Hfit w c'. subst c' w. rewrite run_all3_fst, !run_all3_snd.
  destruct (write_fifo c a Htx) as (R1 & W1 & S1 & F1 & L1).
  { apply (tx_not_full _ (length (tx_contents (self c))) Htx); lia. }
  destruct (write_fifo _ b W1) as (R2 & W2 & S2 & F2 & L2).
  { apply (tx_not_full _ (S (length (tx_contents (self c)))) W1); [| rewrite S1]; lia. }
  destruct (write_fifo _ d W2) as (R3 & W3 & S3 & F3 & L3).
  { apply (tx_not_full _ (S (S (length (tx_contents (self c))))) W2);
      [| rewrite S2, S1]; lia. }
  destruct (tx_completions_state n _ W3) as (_ & Sn & Cn).
  assert (F : transmitted (hal_trace (snd (write d (snd (write b (snd (write a c))))))) ++
              tx_contents (self (snd (write d (snd (write b (snd (write a c)))))))
              = transmitted (hal_trace c) ++ tx_contents (self c) ++ [a; b; d]).
  { rewrite F3, app_assoc, F2, !app_assoc, F1. rewrite <- !app_assoc. reflexivity. }
  split; [rewrite R1, R2, R3; reflexivity |].
  split.
  - rewrite Sn, Cn, <- app_assoc, take_drop. exact F.
  - intros Hn.
    assert (Hl : (length (tx_contents
                    (self (snd (write d (snd (write b (snd (write a c)))))))) <= n)%nat)
      by lia.
    rewrite Sn, Cn, (take_ge _ _ Hl), (drop_ge _ _ Hl).
    split; [exact F | reflexivity].
Qed.

(** C2, amended: bytes are delivered in the order they were committed,
    older bytes first.  From a ring of either direction with three free
    slots, pushing [a], [b], [d] puts them behind the bytes already
    queued.  Inbound, three reads return the first three of the queue
    so extended and reading on returns all of it in order.  Outbound,
    on any transport, the three writes are accepted, the bytes handed
    over followed by the bytes queued are always the earlier ones
    followed by [a], [b], [d], and after enough completions all of them
    have been handed over in that order.  From an empty ring (at any
    index position, capacity at least 4) three dequeues therefore yield
    exactly [a], [b], [d]. *)
Theorem fifo_order (c : Ctx T) (a b d : byte) (n : nat) :
  port_wf (self c) ->
  (_rxHead (self c) = _rxTail (self c) -> 4 <= _rxSize (self c) ->
   fst (run_all [read; read; read]
          (snd (run_all [rx_event a; rx_event b; rx_event d] c)))
   = [byte_to_int a; byte_to_int b; byte_to_int d]) /\
  (_txHead (self c) = _txTail (self c) -> 4 <= _txSize (self c) ->
   let w := run_all [write a; write b; write d] c in
   let c' := snd (run_all [handleTxComplete; handleTxComplete; handleTxComplete]
                    (snd w)) in
   fst w = [1; 1; 1] /\
   transmitted (hal_trace c') = transmitted (hal_trace c) ++ [a; b; d] /\
   tx_contents (self c') = []) /\
  (Z.of_nat (length (rx_contents (self c))) + 3 <= _rxSize (self c) - 1 ->
   let c3 := snd (run_all [rx_event a; rx_event b; rx_event d] c) in
   rx_contents (self c3) = rx_contents (self c) ++ [a; b; d] /\
   fst (run_all [read; read; read] c3)
     = map byte_to_int (take 3 (rx_contents (self c) ++ [a; b; d])) /\
   fst (run_all (replicate (length (rx_contents (self c)) + 3) read) c3)
     = map byte_to_int (rx_contents (self c) ++ [a; b; d])) /\
  (Z.of_nat (length (tx_contents (self c))) + 3 <= _txSize (self c) - 1 ->
   let w := run_all [write a; write b; write d] c in
   let c' := snd (run_all (replicate n handleTxComplete) (snd w)) in
   fst w = [1; 1; 1] /\
   transmitted (hal_trace c') ++ tx_contents (self c')
     = transmitted (hal_trace c) ++ tx_contents (self c) ++ [a; b; d] /\
   ((length (tx_contents (self c)) + 3 <= n)%nat ->
    transmitted (hal_trace c')
      = transmitted (hal_trace c) ++ tx_contents (self c) ++ [a; b; d] /\
    tx_contents (self c') = [])).
Proof.
  intros Hwf. destruct (fifo_from_empty c a b d Hwf) as (Erx & Etx).
  destruct Hwf as [Hrx Htx].
  split; [exact Erx | split; [exact Etx | split]].
  - intros Hfit. exact (rx_fifo_general c a b d Hrx Hfit).
  - intros Hfit. exact (tx_fifo_general c a b d n Htx Hfit).
Qed.

End Fifo.

Lemma fifo_order_witness :
  port_wf (self (fresh_ctx 4 sim_idle)) /\
  fst (run_all [read; read; read]
         (snd (run_all [rx_event x61; rx_event x62; rx_event x63]
                 (fresh_ctx 4 sim_idle))))
  = [byte_to_int x61; byte_to_int x62; byte_to_int x63] /\
  transmitted (hal_trace
    (snd (run_all [handleTxComplete; handleTxComplete; handleTxComplete]
            (snd (run_all [write x61; write x62; write x63]
                    (fresh_ctx 4 sim_idle))))))
  = [x61; x62; x63] /\
  port_wf (self one_queued_ctx) /\
  fst (run_all (replicate 4 read)
         (snd (run_all [rx_event x61; rx_event x62; rx_event x63] one_queued_ctx)))
  = [0x78; 0x61; 0x62; 0x63] /\
  transmitted (hal_trace
    (snd (run_all (replicate 6 handleTxComplete)
            (snd (run_all [write x64; write x65; write x66] full8_ctx)))))
  = [x61; x62; x63; x64; x65; x66].
Proof.
  assert (Hwf : port_wf (self (fresh_ctx 4 sim_idle))) by wf_compute.
  assert (Hwf1 : port_wf (self one_queued_ctx)) by wf_compute.
  assert (Hwf2 : port_wf (self full8_ctx)) by wf_compute.
  split; [exact Hwf |].
  destruct (fifo_order (fresh_ctx 4 sim_idle) x61 x62 x63 3 Hwf) as (Hrx & Htx & _).
  split; [apply Hrx; [reflexivity | vm_compute; discriminate] |].
  split.
  { destruct Htx as (_ & Hsent & _); [reflexivity | vm_compute; discriminate |].
    exact Hsent. }
  split; [exact Hwf1 |].
  destruct (fifo_order one_queued_ctx x61 x62 x63 0 Hwf1) as (_ & _ & Hgrx & _).
  destruct Hgrx as (_ & _ & Hall); [vm_compute; discriminate |].
  split; [exact Hall |].
  destruct (fifo_order full8_ctx x64 x65 x66 6 Hwf2) as (_ & _ & _ & Hgtx).
  destruct Hgtx as (_ & _ & Hdone); [vm_compute; discriminate |].
  destruct Hdone as (Hsent & _); [vm_compute; lia |].
  rewrite Hsent. reflexivity.
Defined.

(** C2 as stated fails on a ring that is not empty: the bytes already
    queued come out first.  With one byte queued and room for three
    more, three reads after the three completions return that byte and
    then only the first two of the three. *)
Lemma fifo_three_pops_start_with_older_byte :
  rx_wf (self one_queued_ctx) /\
  Z.of_nat (length (rx_contents (self one_queued_ctx))) + 3
    <= _rxSize (self one_queued_ctx) - 1 /\
  fst (run_all [read; read; read]
         (snd (run_all [rx_event x61; rx_event x62; rx_event x63] one_queued_ctx)))
  = [byte_to_int x78; byte_to_int x61; byte_to_int x62] /\
  fst (run_all [read; read; read]
         (snd (run_all [rx_event x61; rx_event x62; rx_event x63] one_queued_ctx)))
  <> [byte_to_int x61; byte_to_int x62; byte_to_int x63].
Proof.
  split; [wf_compute |].
  split; [vm_compute; discriminate |].
  split; [reflexivity | vm_compute; discriminate].
Qed.

(** ** The instance registry *)

Section RegistryProps.
Context {T : Type} `{Transport T} `{Device}.

Lemma registerInstance_slot (h : T) (p : ptr) (tbl : list ptr) :
  registerInstance h p tbl =
  match slot_of (uart_Instance h) with
  | Some k => <[k := p]> tbl
  | None => tbl
  end.
Proof.
  unfold registerInstance, slot_of.
  repeat (destruct (_ =? _); [reflexivity |]). reflexivity.
Qed.

Lemma fromHandle_slot (h : T) (tbl : list ptr) :
  fromHandle h tbl =
  match slot_of (uart_Instance h) with
  | Some k => tbl !!! k
  | None => nullptr
  end.
Proof.
  unfold fromHandle, slot_of.
  repeat (destruct (_ =? _); [reflexivity |]). reflexivity.
Qed.

Lemma slot_of_lt (i : ptr) (k : nat) : slot_of i = Some k -> (k < MAX_UARTS)%nat.
Proof.
  unfold slot_of, MAX_UARTS.
  repeat (destruct (_ =? _); [intros [= <-]; lia |]). discriminate.
Qed.

Lemma slot_of_inj (i j : ptr) (k : nat) :
  slot_of i = Some k -> slot_of j = Some k -> i = j.
Proof.
  unfold slot_of.
  repeat (match goal with
          | |- context [i =? ?x] => destruct (Z.eqb_spec i x) as [-> | _]
          end;
          [ intros [= <-];
            repeat (match goal with
                    | |- context [j =? ?x] => destruct (Z.eqb_spec j x) as [-> | _]
                    end;
                    [intros E; first [reflexivity | discriminate E] |]);
            intros E; discriminate E |]).
  intros E; discriminate E.
Qed.

Lemma slot_of_supported (i : ptr) : supported i -> exists k, slot_of i = Some k.
Proof.
  unfold supported, slot_of. intros Hs.
  repeat (match goal with
          | |- context [i =? ?x] => destruct (Z.eqb_spec i x) as [? | ?]
          end; [eexists; reflexivity |]).
  exfalso. tauto.
Qed.

Lemma slot_of_unsupported (i : ptr) : ~ supported i -> slot_of i = None.
Proof.
  unfold supported, slot_of. intros Hn.
  repeat (match goal with
          | |- context [i =? ?x] => destruct (Z.eqb_spec i x) as [? | ?]
          end; [exfalso; tauto |]).
  reflexivity.
Qed.

Lemma registerInstance_length (h : T) (p : ptr) (tbl : list ptr) :
  length (registerInstance h p tbl) = length tbl.
Proof.
  rewrite registerInstance_slot. destruct (slot_of _); [apply length_insert | reflexivity].
Qed.

Lemma fromHandle_register_same (h : T) (p : ptr) (tbl : list ptr) :
  length tbl = MAX_UARTS -> supported (uart_Instance h) ->
  fromHandle h (registerInstance h p tbl) = p.
Proof.
  intros Hlen Hs. destruct (slot_of_supported _ Hs) as [k Hk].
  rewrite fromHandle_slot, registerInstance_slot, Hk.
  apply list_lookup_total_insert_eq. pose proof (slot_of_lt _ _ Hk). lia.
Qed.

Lemma fromHandle_register_other (h h' : T) (p : ptr) (tbl : list ptr) :
  uart_Instance h' <> uart_Instance h ->
  fromHandle h (registerInstance h' p tbl) = fromHandle h tbl.
Proof.
  intros Hne. rewrite !fromHandle_slot, registerInstance_slot.
  destruct (slot_of (uart_Instance h)) as [k |] eqn:Hk; [| reflexivity].
  destruct (slot_of (uart_Instance h')) as [k' |] eqn:Hk'; [| reflexivity].
  apply list_lookup_total_insert_ne. intros ->.
  apply Hne. exact (slot_of_inj _ _ _ Hk' Hk).
Qed.

Lemma register_all_other (h : T) (regs : list (T * ptr)) :
  Forall (fun r => uart_Instance (fst r) <> uart_Instance h) regs ->
  forall tbl, fromHandle h (register_all regs tbl) = fromHandle h tbl.
Proof.
  unfold register_all. induction 1 as [| r regs Hr _ IH]; intros tbl; simpl.
  - reflexivity.
  - rewrite IH. apply fromHandle_register_other, Hr.
Qed.

Lemma fromHandle_init (h : T) : fromHandle h instance_table_init = nullptr.
Proof.
  rewrite fromHandle_slot.
  destruct (slot_of (uart_Instance h)) as [k |] eqn:Hk; [| reflexivity].
  apply slot_of_lt in Hk. unfold MAX_UARTS in Hk.
  do 6 (destruct k as [| k]; [reflexivity |]). lia.
Qed.

Lemma invoke_table {A : Type} (this : ptr) (m : M T A) (w w' : World T) :
  invoke_ this m w = Some w' -> instance_table_ w' = instance_table_ w.
Proof.
  unfold invoke_, invoke.
  destruct (objects w !! this) as [o |]; simpl; [| discriminate].
  destruct (handles w !! _huart o) as [u |]; simpl; [| discriminate].
  destruct (m _) as [a c]. simpl. intros [= <-]. reflexivity.
Qed.

Lemma update_object_table (this : ptr) (f : STM32BufferedSerial -> STM32BufferedSerial)
    (w w' : World T) :
  update_object this f w = Some w' -> instance_table_ w' = instance_table_ w.
Proof.
  unfold update_object.
  destruct (objects w !! this) as [o |]; simpl; [| discriminate].
  intros [= <-]. reflexivity.
Qed.

Lemma callback_table (m : M T unit) (huart : ptr) (w w' : World T) :
  (h ← handles w !! huart;
   let obj := fromHandle h (instance_table_ w) in
   if obj =? nullptr then Some w else invoke_ obj m w) = Some w' ->
  instance_table_ w' = instance_table_ w.
Proof.
  destruct (handles w !! huart) as [h |]; simpl; [| discriminate].
  destruct (_ =? _); [intros [= <-]; reflexivity | apply invoke_table].
Qed.

Lemma insert_slot_cases (tbl : list ptr) (k j : nat) (p : ptr) :
  <[k := p]> tbl !! j = tbl !! j \/ <[k := p]> tbl !! j = Some p.
Proof.
  destruct (decide (k = j)) as [-> | Hne].
  - destruct (decide (j < length tbl)%nat) as [Hlt | Hge].
    + right. apply list_lookup_insert_eq, Hlt.
    + left. rewrite list_insert_ge by lia. reflexivity.
  - left. apply list_lookup_insert_ne, Hne.
Qed.

Lemma registerInstance_slot_cases (h : T) (p : ptr) (tbl : list ptr) (j : nat) :
  registerInstance h p tbl !! j = tbl !! j \/ registerInstance h p tbl !! j = Some p.
Proof.
  rewrite registerInstance_slot.
  destruct (slot_of _); [apply insert_slot_cases | left; reflexivity].
Qed.

Lemma step_table_frame (op : Op T) (w w' : World T) :
  step op w = Some w' -> is_registration op = false ->
  instance_table_ w' = instance_table_ w.
Proof.
  intros Hstep Hreg. destruct op; simpl in Hstep, Hreg; try discriminate;
    try (eapply invoke_table; exact Hstep);
    try (eapply update_object_table; exact Hstep);
    try (eapply callback_table; exact Hstep).
  injection Hstep as <-. reflexivity.
Qed.

(** A whole run without registrations keeps the table. *)
Lemma steps_table_frame (ops : list (Op T)) :
  Forall (fun op => is_registration op = false) ops ->
  forall w w', steps ops w = Some w' -> instance_table_ w' = instance_table_ w.
Proof.
  induction 1 as [| op ops Hop _ IH]; intros w w'; simpl.
  - intros [= <-]. reflexivity.
  - destruct (step op w) as [w1 |] eqn:Hstep; simpl; [| discriminate].
    intros Hrest. rewrite (IH _ _ Hrest). exact (step_table_frame _ _ _ Hstep Hop).
Qed.

(** C9: once [registerInstance(h, p)] has run for a handle of a supported
    peripheral, and whatever was registered before, [fromHandle(h)] is [p]
    as long as no later registration names the same peripheral; for a
    peripheral that no registration has named, [fromHandle] is [nullptr];
    and on [nullptr] the two completion callbacks leave the program
    state as it is. *)
Theorem registry_lookup (h : T) (p : ptr) (tbl : list ptr)
    (later regs : list (T * ptr)) (w : World T) (huart : ptr) :
  (length tbl = MAX_UARTS ->
   supported (uart_Instance h) ->
   Forall (fun r => uart_Instance (fst r) <> uart_Instance h) later ->
   fromHandle h (register_all later (registerInstance h p tbl)) = p) /\
  (Forall (fun r => uart_Instance (fst r) <> uart_Instance h) regs ->
   fromHandle h (register_all regs instance_table_init) = nullptr) /\
  (handles w !! huart = Some h ->
   fromHandle h (instance_table_ w) = nullptr ->
   HAL_UART_RxCpltCallback huart w = Some w /\
   HAL_UART_TxCpltCallback huart w = Some w).
Proof.
  split; [| split].
  - intros Hlen Hs Hlater. rewrite (register_all_other h later Hlater).
    apply fromHandle_register_same; assumption.
  - intros Hregs. rewrite (register_all_other h regs Hregs). apply fromHandle_init.
  - intros Hh Hnull. unfold HAL_UART_RxCpltCallback, HAL_UART_TxCpltCallback.
    rewrite Hh. simpl. rewrite Hnull. split; reflexivity.
Qed.

(** C10, amended: the table changes only through [registerInstance],
    which the application calls and which the constructor calls too.
    Constructing an object on a handle changes the table exactly as
    [registerInstance(_huart, this)] does: when the handle's peripheral
    is one of the six, the object's address is stored in its slot, so
    [fromHandle] then returns the object; when it is none of the six,
    the table is left as it is.  Every operation that is not a
    registration leaves the table as it is; and a slot only ever changes
    by being overwritten with the pointer of a registration. *)
Theorem registry_changes_only_by_registration (op : Op T) (w w' : World T) :
  step op w = Some w' ->
  (is_registration op = false -> instance_table_ w' = instance_table_ w) /\
  (forall this huart bufSize rxInit txInit,
     op = OpConstruct this huart bufSize rxInit txInit ->
     exists h : T,
       handles w !! huart = Some h /\
       instance_table_ w' = registerInstance h this (instance_table_ w) /\
       (length (instance_table_ w) = MAX_UARTS -> supported (uart_Instance h) ->
        fromHandle h (instance_table_ w') = this) /\
       (~ supported (uart_Instance h) ->
        instance_table_ w' = instance_table_ w)) /\
  length (instance_table_ w') = length (instance_table_ w) /\
  (forall k : nat,
     instance_table_ w' !! k = instance_table_ w !! k \/
     instance_table_ w' !! k = Some (registered_ptr op)).
Proof.
  intros Hstep.
  pose proof (step_table_frame op w w' Hstep) as Hframe.
  destruct op; simpl in Hstep;
    try (specialize (Hframe eq_refl);
         split; [intros _; exact Hframe |];
         split; [intros ? ? ? ? ? [=] |];
         rewrite Hframe; split; [reflexivity | intros k; left; reflexivity]).
  - unfold construct, call_registerInstance in Hstep. simpl in Hstep.
    destruct (handles w !! huart) as [h |] eqn:Hh; simpl in Hstep; [| discriminate].
    injection Hstep as <-. simpl.
    split; [discriminate |].
    split; [| split; [apply registerInstance_length
                     | intros k; apply registerInstance_slot_cases]].
    intros ? ? ? ? ? [= <- <- <- <- <-]. exists h.
    split; [exact Hh | split; [reflexivity | split]].
    + apply fromHandle_register_same.
    + intros Hs. rewrite registerInstance_slot, (slot_of_unsupported _ Hs). reflexivity.
  - unfold call_registerInstance in Hstep.
    destruct (handles w !! huart) as [h |] eqn:Hh; simpl in Hstep; [| discriminate].
    injection Hstep as <-. simpl.
    split; [discriminate |].
    split; [intros ? ? ? ? ? [=] |].
    split; [apply registerInstance_length | intros k; apply registerInstance_slot_cases].
Qed.

End RegistryProps.

Lemma registry_lookup_witness :
  fromHandle sim_idle
    (register_all [(sim_usart1, 0x20000200)]
       (registerInstance sim_idle 0x20000100
          (registerInstance sim_idle 0x20000000 instance_table_init)))
  = 0x20000100 /\
  fromHandle sim_idle (register_all [(sim_usart1, 0x20000200)] instance_table_init)
  = nullptr /\
  HAL_UART_RxCpltCallback 0x20001000 boot_world = Some boot_world /\
  HAL_UART_TxCpltCallback 0x20001000 boot_world = Some boot_world.
Proof.
  destruct (registry_lookup sim_idle 0x20000100
              (registerInstance sim_idle 0x20000000 instance_table_init)
              [(sim_usart1, 0x20000200)] [(sim_usart1, 0x20000200)]
              boot_world 0x20001000) as (Hlast & Hnever & Hnoop).
  assert (Hother : Forall (fun r : SimUart * ptr =>
                     uart_Instance (fst r) <> uart_Instance sim_idle)
                     [(sim_usart1, 0x20000200)]).
  { constructor; [vm_compute; discriminate | constructor]. }
  split; [| split].
  - apply Hlast; [reflexivity | right; left; reflexivity | exact Hother].
  - apply Hnever, Hother.
  - apply Hnoop; reflexivity.
Defined.

Lemma registry_changes_only_by_registration_witness :
  exists w' : World SimUart,
    step construct_op boot_world = Some w' /\
    instance_table_ w' = [0; 0x20000000; 0; 0; 0; 0] /\
    fromHandle sim_idle (instance_table_ w') = 0x20000000 /\
    length (instance_table_ w') = length (instance_table_ boot_world).
Proof.
  eexists. split; [reflexivity |].
  match goal with
  | |- instance_table_ ?w = _ /\ _ =>
      assert (Hstep : step construct_op boot_world = Some w) by reflexivity;
      destruct (registry_changes_only_by_registration construct_op boot_world w Hstep)
        as (_ & Hcons & Hlen & _)
  end.
  split; [reflexivity |].
  split; [| exact Hlen].
  destruct (Hcons _ _ _ _ _ eq_refl) as (h & Hh & _ & Hfound & _).
  assert (Eh : Some h = Some sim_idle) by (rewrite <- Hh; reflexivity).
  injection Eh as ->. apply Hfound; [reflexivity | right; left; reflexivity].
Defined.

(** C10 as stated fails: the constructor registers the object it
    builds.  On the table as it is at start-up, constructing a port on
    the handle of USART2 fills the second slot. *)
Lemma construct_registers_the_object :
  instance_table_ boot_world = [0; 0; 0; 0; 0; 0] /\
  instance_table_ <$> step construct_op boot_world = Some [0; 0x20000000; 0; 0; 0; 0] /\
  instance_table_ <$> step construct_op boot_world <> Some (instance_table_ boot_world).
Proof.
  split; [reflexivity |].
  split; [reflexivity |].
  vm_compute. discriminate.
Qed.

(** * Further properties of the driver *)

(** ** The inbound path: [read], [available], [readable_len] *)

Section Inbound.
Context {T : Type} `{Transport T}.

Lemma byte_to_int_range (b : byte) : 0 <= byte_to_int b < 256.
Proof.
  unfold byte_to_int. pose proof (Byte.to_N_bounded b). lia.
Qed.

Lemma available_spec (s : STM32BufferedSerial) :
  available s = negb (_rxTail s =? _rxHead s).
Proof. unfold available. rewrite (Z.eqb_sym (_rxHead s)). reflexivity. Qed.

Lemma read_unavailable (c : Ctx T) :
  available (self c) = false -> read c = (-1, c).
Proof.
  rewrite read_spec, available_spec. intros E.
  apply negb_false_iff in E. rewrite E. reflexivity.
Qed.

Lemma readable_len_contents (s : STM32BufferedSerial) :
  rx_wf s -> readable_len s = Z.of_nat (length (rx_contents s)).
Proof.
  intros (HN & Hh & Ht & Hlen). unfold rx_contents.
  rewrite ring_contents_length by assumption.
  apply readable_len_ring; assumption.
Qed.

Lemma available_positive (s : STM32BufferedSerial) :
  rx_wf s -> (available s = true <-> 0 < readable_len s).
Proof.
  intros (HN & Hh & Ht & Hlen).
  pose proof (ring_len_range _ _ _ Hh Ht) as Hr.
  pose proof (ring_len_empty _ _ _ Hh Ht) as He.
  rewrite readable_len_ring by assumption.
  unfold available. rewrite negb_true_iff, Z.eqb_neq. split; intros F.
  - assert (ring_len (_rxSize s) (_rxHead s) (_rxTail s) <> 0) by tauto. lia.
  - intros G. apply He in G. lia.
Qed.

(** X1: [read] returns [-1] exactly when no byte is available, and then
    changes nothing; otherwise it returns a value in [0, 255], which is
    the front of the ring, and removes it.  It never calls the HAL. *)
Theorem read_sentinel (c : Ctx T) :
  rx_wf (self c) ->
  (fst (read c) = -1 <-> available (self c) = false) /\
  (if available (self c)
   then 0 <= fst (read c) < 256 /\
        rx_contents (self c) <> [] /\
        [fst (read c)] = map byte_to_int (take 1 (rx_contents (self c))) /\
        rx_contents (self (snd (read c))) = drop 1 (rx_contents (self c))
   else read c = (-1, c)) /\
  uart (snd (read c)) = uart c /\
  hal_trace (snd (read c)) = hal_trace c.
Proof.
  intros Hwf. rewrite read_spec, available_spec.
  destruct (Z.eqb_spec (_rxTail (self c)) (_rxHead (self c))) as [E | E]; simpl.
  - repeat split; reflexivity.
  - destruct (rx_dequeued_spec (self c) Hwf E) as (Hc & _).
    pose proof (byte_to_int_range (_rxBuf (self c) !!! Z.to_nat (_rxTail (self c)))) as Hb.
    rewrite Hc. simpl. rewrite drop_0.
    repeat split; try lia; try discriminate; try reflexivity.
Qed.

(** X2: on a well-formed inbound ring [readable_len()] is the number of
    bytes queued, it lies in [0, N - 1], and [available()] is true
    exactly when it is positive. *)
Theorem readable_len_counts_queued_bytes (s : STM32BufferedSerial) :
  rx_wf s ->
  readable_len s = Z.of_nat (length (rx_contents s)) /\
  0 <= readable_len s <= _rxSize s - 1 /\
  (available s = true <-> 0 < readable_len s).
Proof.
  intros Hwf. split; [apply readable_len_contents, Hwf |].
  split; [| apply available_positive, Hwf].
  destruct Hwf as (HN & Hh & Ht & Hlen).
  rewrite readable_len_ring by assumption. apply ring_len_range; assumption.
Qed.

(** The state after [n] reads. *)
Lemma reads_state (n : nat) :
  forall c : Ctx T,
    rx_wf (self c) ->
    (n <= length (rx_contents (self c)))%nat ->
    rx_wf (self (snd (run_all (replicate n read) c))) /\
    rx_contents (self (snd (run_all (replicate n read) c))) = drop n (rx_contents (self c)) /\
    uart (snd (run_all (replicate n read) c)) = uart c /\
    hal_trace (snd (run_all (replicate n read) c)) = hal_trace c.
Proof.
  induction n as [| n IH]; intros c Hwf Hn.
  - simpl. rewrite drop_0. split; [exact Hwf | repeat split].
  - change (replicate (S n) read) with (read :: replicate n (read (T:=T))).
    rewrite run_all_cons_snd, read_spec.
    destruct (Z.eqb_spec (_rxTail (self c)) (_rxHead (self c))) as [E | E].
    + exfalso. destruct Hwf as (HN & Hh & Ht & Hlen).
      symmetry in E. apply (ring_contents_empty (_rxBuf (self c)) _ _ _ Hh Ht) in E.
      unfold rx_contents in Hn. rewrite E in Hn. simpl in Hn. lia.
    + destruct (rx_dequeued_spec (self c) Hwf E) as (Hc & Hwf1 & _).
      simpl snd.
      destruct (IH (with_self (rx_dequeued (self c)) c) Hwf1) as (W & C & U & Tr).
      { rewrite Hc in Hn. simpl in Hn. simpl. lia. }
      split; [exact W |]. rewrite C, U, Tr, Hc. simpl. repeat split; reflexivity.
Qed.

(** X3: reading [readable_len()] times drains the ring: the reads return
    the queued bytes in order, none of them [-1]; afterwards nothing is
    available, the count is zero and a further read returns [-1]. *)
Theorem reads_drain_the_ring (c : Ctx T) :
  rx_wf (self c) ->
  let r := run_all (replicate (Z.to_nat (readable_len (self c))) read) c in
  fst r = map byte_to_int (rx_contents (self c)) /\
  Forall (fun v => 0 <= v < 256) (fst r) /\
  available (self (snd r)) = false /\
  readable_len (self (snd r)) = 0 /\
  fst (read (snd r)) = -1.
Proof.
  intros Hwf r. subst r.
  rewrite (readable_len_contents _ Hwf), Nat2Z.id.
  destruct (reads_state (length (rx_contents (self c))) c Hwf (Nat.le_refl _))
    as (W & C & _).
  rewrite drop_all in C.
  rewrite reads_spec by (try assumption; lia). rewrite firstn_all.
  split; [reflexivity |].
  split; [apply Forall_forall; intros v Hv; apply list_elem_of_fmap in Hv as (b & -> & _);
          apply byte_to_int_range |].
  set (c' := snd (run_all (replicate (length (rx_contents (self c))) read) c)) in *.
  assert (Hl : readable_len (self c') = 0)
    by (rewrite (readable_len_contents _ W), C; reflexivity).
  assert (Ha : available (self c') = false).
  { destruct (available (self c')) eqn:E; [| reflexivity].
    apply (available_positive _ W) in E. lia. }
  split; [exact Ha | split; [exact Hl |]].
  rewrite (read_unavailable _ Ha). reflexivity.
Qed.

Lemma rx_event_full (b : byte) (c : Ctx T) :
  rx_has_room (self c) = false ->
  self (snd (rx_event b c)) = with_rxTmp b (self c).
Proof.
  intros Hfull. unfold rx_event, bind, hw_store_rx, get_self, put_self. simpl.
  rewrite handleRxComplete_self. simpl.
  change (rx_has_room (with_rxTmp b (self c))) with (rx_has_room (self c)).
  rewrite Hfull. reflexivity.
Qed.

(** Completions fill the free slots with the oldest of the incoming
    bytes and drop the rest. *)
Lemma rx_events_overflow (bs : list byte) :
  forall c : Ctx T,
    rx_wf (self c) ->
    rx_wf (self (snd (run_all (map rx_event bs) c))) /\
    _rxSize (self (snd (run_all (map rx_event bs) c))) = _rxSize (self c) /\
    rx_contents (self (snd (run_all (map rx_event bs) c))) =
      rx_contents (self c) ++
      take (Z.to_nat (_rxSize (self c) - 1 - Z.of_nat (length (rx_contents (self c))))) bs.
Proof.
  induction bs as [| b bs IH]; intros c Hwf.
  - simpl. rewrite take_nil, app_nil_r. split; [exact Hwf | split; reflexivity].
  - change (map rx_event (b :: bs)) with (rx_event b :: map rx_event bs).
    rewrite run_all_cons_snd.
    destruct (rx_has_room (self c)) eqn:Hroom.
    + destruct (rx_event_spec b c Hwf Hroom) as (Hwf1 & Hc1 & Hsz1).
      destruct (IH (snd (rx_event b c)) Hwf1) as (W & Sz & C).
      split; [exact W | split; [congruence |]].
      rewrite C, Hc1, Hsz1, length_app. simpl length.
      apply (rx_has_room_length _ Hwf) in Hroom.
      replace (Z.to_nat (_rxSize (self c) - 1 - Z.of_nat (length (rx_contents (self c)))))
        with (S (Z.to_nat (_rxSize (self c) - 1 -
                            Z.of_nat (length (rx_contents (self c)) + 1)))) by lia.
      simpl. rewrite <- app_assoc. reflexivity.
    + pose proof (rx_event_full b c Hroom) as Hs.
      assert (Hwf1 : rx_wf (self (snd (rx_event b c)))) by (rewrite Hs; exact Hwf).
      destruct (IH (snd (rx_event b c)) Hwf1) as (W & Sz & C).
      rewrite Hs in Sz, C.
      change (rx_contents (with_rxTmp b (self c))) with (rx_contents (self c)) in C.
      change (_rxSize (with_rxTmp b (self c))) with (_rxSize (self c)) in Sz, C.
      split; [exact W | split; [exact Sz |]]. rewrite C.
      assert (Hz : Z.to_nat (_rxSize (self c) - 1 -
                              Z.of_nat (length (rx_contents (self c)))) = O).
      { destruct (Z.ltb_spec (Z.of_nat (length (rx_contents (self c))))
                    (_rxSize (self c) - 1)) as [L | L]; [| lia].
        apply (rx_has_room_length _ Hwf) in L. congruence. }
      rewrite Hz. reflexivity.
Qed.

(** X4: inbound overflow keeps the oldest bytes.  After any run of
    completions with no read in between, the ring holds what it held
    followed by as many of the incoming bytes as there were free slots,
    in arrival order; the later bytes are dropped, and [readable_len()]
    is [min(queued + arrived, N - 1)]. *)
Theorem rx_overflow_keeps_oldest (c : Ctx T) (bs : list byte) :
  rx_wf (self c) ->
  let c' := snd (run_all (map rx_event bs) c) in
  let free := _rxSize (self c) - 1 - readable_len (self c) in
  rx_contents (self c') = rx_contents (self c) ++ take (Z.to_nat free) bs /\
  readable_len (self c') =
    Z.min (readable_len (self c) + Z.of_nat (length bs)) (_rxSize (self c) - 1).
Proof.
  intros Hwf c' free. subst c' free.
  destruct (rx_events_overflow bs c Hwf) as (W & Sz & C).
  rewrite (readable_len_contents _ W), (readable_len_contents _ Hwf), C.
  split; [reflexivity |].
  rewrite length_app, length_take.
  destruct Hwf as (HN & Hh & Ht & Hlen).
  pose proof (ring_len_range _ _ _ Hh Ht) as Hr.
  rewrite <- (ring_contents_length (_rxBuf (self c))) in Hr by assumption.
  fold (rx_contents (self c)) in Hr. lia.
Qed.

(** X5: inbound round trip.  When the incoming bytes fit, reading as many
    times as there are bytes in the ring returns the bytes queued before
    followed by the incoming ones, in order. *)
Theorem rx_round_trip (c : Ctx T) (bs : list byte) :
  rx_wf (self c) ->
  readable_len (self c) + Z.of_nat (length bs) <= _rxSize (self c) - 1 ->
  let c' := snd (run_all (map rx_event bs) c) in
  readable_len (self c') = readable_len (self c) + Z.of_nat (length bs) /\
  fst (run_all (replicate (Z.to_nat (readable_len (self c'))) read) c')
  = map byte_to_int (rx_contents (self c) ++ bs).
Proof.
  intros Hwf Hfit c'. subst c'.
  rewrite (readable_len_contents _ Hwf) in Hfit.
  destruct (rx_events_spec bs c Hwf) as (W & C); [lia |].
  rewrite (readable_len_contents _ W), (readable_len_contents _ Hwf), C.
  rewrite length_app. split; [lia |].
  rewrite Nat2Z.id, reads_spec by (try assumption; rewrite C, length_app; lia).
  rewrite C. rewrite <- length_app, firstn_all. reflexivity.
Qed.

End Inbound.

Lemma read_sentinel_witness :
  rx_wf (self one_queued_ctx) /\
  available (self one_queued_ctx) = true /\
  fst (read one_queued_ctx) = 0x78 /\
  fst (read (snd (read one_queued_ctx))) = -1.
Proof.
  assert (Hwf : rx_wf (self one_queued_ctx)) by wf_compute.
  split; [exact Hwf |]. split; [reflexivity |].
  destruct (read_sentinel one_queued_ctx Hwf) as (_ & Hval & _).
  change (available (self one_queued_ctx)) with true in Hval.
  destruct Hval as (_ & _ & Hfront & _).
  split; [| reflexivity].
  apply (f_equal (fun l => nth 0 l 0)) in Hfront. exact Hfront.
Defined.

Lemma readable_len_counts_queued_bytes_witness :
  rx_wf (self one_queued_ctx) /\
  readable_len (self one_queued_ctx) = 1 /\
  rx_contents (self one_queued_ctx) = [x78].
Proof.
  assert (Hwf : rx_wf (self one_queued_ctx)) by wf_compute.
  split; [exact Hwf |].
  destruct (readable_len_counts_queued_bytes (self one_queued_ctx) Hwf) as (Hl & _).
  split; [rewrite Hl; reflexivity | reflexivity].
Defined.

Lemma reads_drain_the_ring_witness :
  rx_wf (self one_queued_ctx) /\
  fst (run_all (replicate (Z.to_nat (readable_len (self one_queued_ctx))) read)
         one_queued_ctx) = [0x78] /\
  fst (read (snd (run_all (replicate (Z.to_nat (readable_len (self one_queued_ctx))) read)
                    one_queued_ctx))) = -1.
Proof.
  assert (Hwf : rx_wf (self one_queued_ctx)) by wf_compute.
  split; [exact Hwf |].
  destruct (reads_drain_the_ring one_queued_ctx Hwf) as (Hr & _ & _ & _ & Hend).
  split; [rewrite Hr; reflexivity | exact Hend].
Defined.

Lemma rx_overflow_keeps_oldest_witness :
  rx_wf (self (fresh_ctx 4 sim_idle)) /\
  rx_contents (self (snd (run_all (map rx_event [x61; x62; x63; x64; x65])
                            (fresh_ctx 4 sim_idle)))) = [x61; x62; x63] /\
  readable_len (self (snd (run_all (map rx_event [x61; x62; x63; x64; x65])
                             (fresh_ctx 4 sim_idle)))) = 3.
Proof.
  assert (Hwf : rx_wf (self (fresh_ctx 4 sim_idle))) by wf_compute.
  split; [exact Hwf |].
  destruct (rx_overflow_keeps_oldest (fresh_ctx 4 sim_idle) [x61; x62; x63; x64; x65] Hwf)
    as (Hc & Hl).
  split; [rewrite Hc; reflexivity | rewrite Hl; reflexivity].
Defined.

Lemma rx_round_trip_witness :
  rx_wf (self one_queued_ctx) /\
  fst (run_all (replicate 3 read)
         (snd (run_all (map rx_event [x61; x62]) one_queued_ctx)))
  = [0x78; 0x61; 0x62].
Proof.
  assert (Hwf : rx_wf (self one_queued_ctx)) by wf_compute.
  split; [exact Hwf |].
  destruct (rx_round_trip one_queued_ctx [x61; x62] Hwf) as (Hl & Hr).
  { vm_compute. discriminate. }
  rewrite Hl in Hr. exact Hr.
Defined.

(** ** The outbound path: [write], [handleTxComplete] *)

Section Outbound.
Context {T : Type} `{Transport T}.

Lemma write_full (c : Ctx T) (d : byte) :
  tx_full (self c) = true -> write d c = (-1, c).
Proof. intros E. rewrite write_spec, E. reflexivity. Qed.

Lemma tx_step_inv (base : list byte) (r : TxRun T) (op : TxOp) :
  tx_wf (self (tx_ctx r)) ->
  transmitted (hal_trace (tx_ctx r)) ++ tx_contents (self (tx_ctx r))
    = base ++ bytes_accepted r ->
  tx_wf (self (tx_ctx (tx_step r op))) /\
  transmitted (hal_trace (tx_ctx (tx_step r op))) ++
    tx_contents (self (tx_ctx (tx_step r op)))
    = base ++ bytes_accepted (tx_step r op).
Proof.
  intros Hwf Hinv. destruct op as [d |]; simpl.
  - destruct (tx_full (self (tx_ctx r))) eqn:Hfull.
    + rewrite (write_full _ d Hfull). simpl. split; assumption.
    + destruct (write_fifo (tx_ctx r) d Hwf Hfull) as (R & W & _ & F & _).
      destruct (write d (tx_ctx r)) as [v c'] eqn:E. simpl in R, W, F. subst v.
      simpl. split; [exact W |].
      rewrite F, app_assoc, Hinv, <- app_assoc. reflexivity.
  - destruct (handleTx_fifo (tx_ctx r) Hwf) as (W & _ & F & _).
    split; [exact W |]. rewrite F. exact Hinv.
Qed.

Lemma tx_fold_inv (base : list byte) (ops : list TxOp) :
  forall r : TxRun T,
    tx_wf (self (tx_ctx r)) ->
    transmitted (hal_trace (tx_ctx r)) ++ tx_contents (self (tx_ctx r))
      = base ++ bytes_accepted r ->
    tx_wf (self (tx_ctx (fold_left tx_step ops r))) /\
    transmitted (hal_trace (tx_ctx (fold_left tx_step ops r))) ++
      tx_contents (self (tx_ctx (fold_left tx_step ops r)))
      = base ++ bytes_accepted (fold_left tx_step ops r).
Proof.
  induction ops as [| op ops IH]; intros r Hwf Hinv; simpl.
  - split; assumption.
  - destruct (tx_step_inv base r op Hwf Hinv) as (W & F). apply IH; assumption.
Qed.

(** X6: nothing is lost, duplicated or reordered on the way out.  After
    any interleaving of [write] calls and transmit completions, on any
    transport, the bytes handed to [HAL_UART_Transmit_IT] followed by the
    bytes still queued are what they were at the start followed by
    exactly the bytes [write] accepted, in call order. *)
Theorem tx_no_loss (c : Ctx T) (ops : list TxOp) :
  tx_wf (self c) ->
  let r := tx_run c ops in
  tx_wf (self (tx_ctx r)) /\
  transmitted (hal_trace (tx_ctx r)) ++ tx_contents (self (tx_ctx r))
    = transmitted (hal_trace c) ++ tx_contents (self c) ++ bytes_accepted r.
Proof.
  intros Hwf r. subst r. unfold tx_run.
  destruct (tx_fold_inv (transmitted (hal_trace c) ++ tx_contents (self c)) ops
              {| tx_ctx := c; bytes_accepted := [] |} Hwf) as (W & F).
  { simpl. rewrite app_nil_r. reflexivity. }
  split; [exact W |]. rewrite F, <- app_assoc. reflexivity.
Qed.

(** X7: completions drain the outbound ring in order.  [n] completions
    hand the first [n] queued bytes to the transport, in queue order,
    and leave the rest queued; once the ring is empty a completion does
    nothing at all. *)
Theorem tx_completions_drain_in_order (c : Ctx T) (n : nat) :
  tx_wf (self c) ->
  let c' := snd (run_all (replicate n handleTxComplete) c) in
  transmitted (hal_trace c') = transmitted (hal_trace c) ++ take n (tx_contents (self c)) /\
  tx_contents (self c') = drop n (tx_contents (self c)) /\
  ((length (tx_contents (self c)) <= n)%nat -> handleTxComplete c' = (tt, c')).
Proof.
  intros Hwf c'. subst c'.
  destruct (tx_completions_state n c Hwf) as (W & S1 & C).
  split; [exact S1 | split; [exact C |]].
  intros Hn. rewrite drop_ge in C by exact Hn.
  pose proof (handleTxComplete_dequeue _ W) as Hd. unfold tx_dequeue_spec in Hd.
  rewrite C in Hd. destruct (handleTxComplete _) as [[] c2]. simpl in Hd. congruence.
Qed.

(** X8: the first byte goes straight through.  A [write] on an empty
    outbound ring while the transport is ready hands that very byte to
    [HAL_UART_Transmit_IT] inside the call and leaves the ring empty. *)
Theorem write_idle_passes_through (c : Ctx T) (d : byte) :
  tx_wf (self c) ->
  _txHead (self c) = _txTail (self c) ->
  2 <= _txSize (self c) ->
  is_READY (gState (uart c)) = true ->
  fst (write d c) = 1 /\
  hal_trace (snd (write d c)) =
    hal_trace c ++ [Call_Transmit_IT d (fst (HAL_UART_Transmit_IT d (uart c)))] /\
  uart (snd (write d c)) = snd (HAL_UART_Transmit_IT d (uart c)) /\
  tx_contents (self (snd (write d c))) = [].
Proof.
  intros Hwf Hempty HN Hready.
  assert (Hq : tx_contents (self c) = []).
  { destruct Hwf as (_ & Hh & Ht & _).
    apply (ring_contents_empty _ _ _ _ Hh Ht), Hempty. }
  assert (Hfull : tx_full (self c) = false).
  { apply (tx_not_full _ 0 Hwf); [rewrite Hq; simpl |]; lia. }
  destruct (tx_enqueued_spec d (self c) Hwf Hfull) as (Hc1 & Hwf1 & Hh1 & Ht1).
  rewrite Hq in Hc1. simpl in Hc1.
  assert (E : _txTail (tx_enqueued d (self c)) <> _txHead (tx_enqueued d (self c))).
  { intros E. destruct Hwf1 as (_ & Hh & Ht & _). symmetry in E.
    apply (ring_contents_empty (_txBuf (tx_enqueued d (self c))) _ _ _ Hh Ht) in E.
    unfold tx_contents in Hc1. congruence. }
  destruct (tx_dequeued_spec _ Hwf1 E) as (Hc2 & _).
  rewrite Hc1 in Hc2.
  assert (Hd : _txBuf (tx_enqueued d (self c))
                 !!! Z.to_nat (_txTail (tx_enqueued d (self c))) = d) by congruence.
  assert (Hrest : tx_contents (tx_dequeued (tx_enqueued d (self c))) = []) by congruence.
  assert (Hw : write d c =
               (1, {| self := tx_dequeued (tx_enqueued d (self c));
                      uart := snd (HAL_UART_Transmit_IT d (uart c));
                      hal_trace := hal_trace c ++
                        [Call_Transmit_IT d (fst (HAL_UART_Transmit_IT d (uart c)))] |})).
  { rewrite write_spec, Hfull, Hready, startTxInterrupt_spec, handleTxComplete_spec.
    apply Z.eqb_neq in E. change (self (with_self (tx_enqueued d (self c)) c))
      with (tx_enqueued d (self c)).
    rewrite E. cbv zeta. rewrite Hd. reflexivity. }
  rewrite Hw. simpl fst. simpl snd.
  split; [reflexivity | split; [reflexivity | split; [reflexivity | exact Hrest]]].
Qed.

(** The loop of [write(data, len)] on any transport. *)
Lemma write_loop_any (data : list byte) :
  forall (written : Z) (c : Ctx T),
    tx_wf (self c) ->
    let free := _txSize (self c) - 1 - Z.of_nat (length (tx_contents (self c))) in
    let n := fst (write_loop data written c) - written in
    let c' := snd (write_loop data written c) in
    Z.min (Z.of_nat (length data)) free <= n <= Z.of_nat (length data) /\
    tx_wf (self c') /\
    transmitted (hal_trace c') ++ tx_contents (self c') =
      transmitted (hal_trace c) ++ tx_contents (self c) ++ take (Z.to_nat n) data.
Proof.
  induction data as [| d rest IH]; intros written c Hwf free n c'.
  - pose proof (tx_contents_bound _ Hwf) as Hb. subst n c' free. simpl. unfold ret. simpl.
    rewrite Z.sub_diag, app_nil_r. split; [lia | split; [exact Hwf | reflexivity]].
  - pose proof (tx_contents_bound _ Hwf) as Hb.
    subst n c'. simpl write_loop. unfold bind.
    destruct (tx_full (self c)) eqn:Hfull.
    + rewrite (write_full _ d Hfull). simpl. unfold ret. simpl.
      apply (tx_full_length _ Hwf) in Hfull.
      rewrite Z.sub_diag. simpl. rewrite app_nil_r.
      split; [subst free; lia | split; [exact Hwf | reflexivity]].
    + destruct (write_fifo c d Hwf Hfull) as (R & W & Sz & F & L).
      destruct (write d c) as [v c1] eqn:E. simpl in R, W, Sz, F, L. subst v. simpl.
      destruct (IH (written + 1) c1 W) as (Hn & W' & F').
      rewrite Sz in Hn.
      set (res := fst (write_loop rest (written + 1) c1)) in *.
      pose proof (tx_contents_bound _ W) as Hb1. rewrite Sz in Hb1.
      assert (En : Z.to_nat (res - written) = S (Z.to_nat (res - (written + 1)))) by lia.
      rewrite En. simpl.
      split; [subst free; simpl length; lia | split; [exact W' |]].
      rewrite F', app_assoc, F, <- !app_assoc. reflexivity.
Qed.

(** X9: [write(data, len)] on any transport, ready or not.  It accepts
    at least [min(len, free slots)] and at most [len] bytes, the bytes
    it accepts are a prefix of [data], and each of them is either handed
    to the transport or queued behind what was queued, in order. *)
Theorem write_buf_accepts_a_prefix (c : Ctx T) (data : list byte) (len : Z) :
  tx_wf (self c) ->
  0 <= len <= Z.of_nat (length data) ->
  let free := _txSize (self c) - 1 - Z.of_nat (length (tx_contents (self c))) in
  let n := fst (write_buf data len c) in
  let c' := snd (write_buf data len c) in
  Z.min len free <= n <= len /\
  tx_wf (self c') /\
  transmitted (hal_trace c') ++ tx_contents (self c') =
    transmitted (hal_trace c) ++ tx_contents (self c) ++ take (Z.to_nat n) data.
Proof.
  intros Hwf Hlen free n c'. subst n c' free. unfold write_buf.
  destruct (write_loop_any (take (Z.to_nat len) data) 0 c Hwf) as (Hn & W & F).
  rewrite Z.sub_0_r in Hn, F. rewrite length_take in Hn.
  split; [lia | split; [exact W |]].
  rewrite F, take_take. f_equal. f_equal. f_equal. lia.
Qed.

(** X10: a ring of capacity one has no usable slot: every [write] is
    refused, every inbound byte is dropped and every [read] finds
    nothing. *)
Theorem capacity_one_stores_nothing (c : Ctx T) (d : byte) :
  port_wf (self c) ->
  _rxSize (self c) = 1 ->
  _txSize (self c) = 1 ->
  write d c = (-1, c) /\
  self (snd (handleRxComplete c)) = self c /\
  read c = (-1, c).
Proof.
  intros [(HNr & Hhr & Htr & _) (HNt & Hht & Htt & _)] Er Et.
  rewrite Er in *. rewrite Et in *.
  assert (_rxHead (self c) = 0 /\ _rxTail (self c) = 0 /\
          _txHead (self c) = 0 /\ _txTail (self c) = 0) as (A & B & C & D) by lia.
  split; [| split].
  - apply write_full. unfold tx_full. rewrite Et, C, D. reflexivity.
  - rewrite handleRxComplete_self. unfold rx_has_room. rewrite Er, A, B. reflexivity.
  - apply read_unavailable. unfold available. rewrite A, B. reflexivity.
Qed.

End Outbound.

Lemma tx_no_loss_witness :
  tx_wf (self (fresh_ctx 4 sim_idle)) /\
  bytes_accepted (tx_run (fresh_ctx 4 sim_idle)
     [TxWrite x61; TxWrite x62; TxWrite x63; TxWrite x64; TxWrite x65;
      TxComplete; TxWrite x66]) = [x61; x62; x63; x64; x66] /\
  transmitted (hal_trace (tx_ctx (tx_run (fresh_ctx 4 sim_idle)
     [TxWrite x61; TxWrite x62; TxWrite x63; TxWrite x64; TxWrite x65;
      TxComplete; TxWrite x66]))) ++
  tx_contents (self (tx_ctx (tx_run (fresh_ctx 4 sim_idle)
     [TxWrite x61; TxWrite x62; TxWrite x63; TxWrite x64; TxWrite x65;
      TxComplete; TxWrite x66]))) = [x61; x62; x63; x64; x66].
Proof.
  assert (Hwf : tx_wf (self (fresh_ctx 4 sim_idle))) by wf_compute.
  split; [exact Hwf | split; [reflexivity |]].
  destruct (tx_no_loss (fresh_ctx 4 sim_idle)
     [TxWrite x61; TxWrite x62; TxWrite x63; TxWrite x64; TxWrite x65;
      TxComplete; TxWrite x66] Hwf) as (_ & F).
  rewrite F. reflexivity.
Defined.

Lemma tx_completions_drain_in_order_witness :
  tx_wf (self full4_ctx) /\
  transmitted (hal_trace (snd (run_all (replicate 2 handleTxComplete) full4_ctx)))
    = [x61; x62] /\
  tx_contents (self (snd (run_all (replicate 2 handleTxComplete) full4_ctx))) = [x63].
Proof.
  assert (Hwf : tx_wf (self full4_ctx)) by wf_compute.
  split; [exact Hwf |].
  destruct (tx_completions_drain_in_order full4_ctx 2 Hwf) as (S1 & C & _).
  split; [rewrite S1 | rewrite C]; reflexivity.
Defined.

Lemma write_idle_passes_through_witness :
  tx_wf (self (fresh_ctx 4 sim_idle)) /\
  hal_trace (snd (write x61 (fresh_ctx 4 sim_idle))) = [Call_Transmit_IT x61 HAL_OK] /\
  tx_contents (self (snd (write x61 (fresh_ctx 4 sim_idle)))) = [].
Proof.
  assert (Hwf : tx_wf (self (fresh_ctx 4 sim_idle))) by wf_compute.
  split; [exact Hwf |].
  assert (Hready : is_READY (gState (uart (fresh_ctx 4 sim_idle))) = true) by reflexivity.
  destruct (write_idle_passes_through (fresh_ctx 4 sim_idle) x61 Hwf eq_refl)
    as (_ & Htr & _ & Hc); [vm_compute; discriminate | exact Hready |].
  split; [rewrite Htr; reflexivity | exact Hc].
Defined.

Lemma write_buf_accepts_a_prefix_witness :
  tx_wf (self (fresh_ctx 5 sim_idle)) /\
  Z.min 10 4 <= fst (write_buf ten_bytes 10 (fresh_ctx 5 sim_idle)) <= 10 /\
  transmitted (hal_trace (snd (write_buf ten_bytes 10 (fresh_ctx 5 sim_idle)))) ++
  tx_contents (self (snd (write_buf ten_bytes 10 (fresh_ctx 5 sim_idle))))
  = [x30; x31; x32; x33; x34].
Proof.
  assert (Hwf : tx_wf (self (fresh_ctx 5 sim_idle))) by wf_compute.
  split; [exact Hwf |].
  destruct (write_buf_accepts_a_prefix (fresh_ctx 5 sim_idle) ten_bytes 10 Hwf)
    as (Hn & _ & F); [vm_compute; split; discriminate |].
  split; [exact Hn | rewrite F; reflexivity].
Defined.

Lemma capacity_one_stores_nothing_witness :
  port_wf (self tiny_ctx) /\
  write x61 tiny_ctx = (-1, tiny_ctx) /\
  read tiny_ctx = (-1, tiny_ctx).
Proof.
  assert (Hwf : port_wf (self tiny_ctx)) by wf_compute.
  split; [exact Hwf |].
  destruct (capacity_one_stores_nothing tiny_ctx x61 Hwf eq_refl eq_refl) as (Hw & _ & Hr).
  split; [exact Hw | exact Hr].
Defined.

(** ** What the methods keep and what they leave alone *)

Section Frames.
Context {T : Type} `{Transport T}.

Lemma same_rx_refl (s : STM32BufferedSerial) : same_rx s s.
Proof. repeat split. Qed.

Lemma same_tx_refl (s : STM32BufferedSerial) : same_tx s s.
Proof. repeat split. Qed.

Lemma same_rx_trans (s1 s2 s3 : STM32BufferedSerial) :
  same_rx s1 s2 -> same_rx s2 s3 -> same_rx s1 s3.
Proof. unfold same_rx. intros (A & B & C & D & E) (A' & B' & C' & D' & E'). repeat split; congruence. Qed.

Lemma rx_wf_same (s s' : STM32BufferedSerial) : same_rx s s' -> rx_wf s -> rx_wf s'.
Proof.
  unfold same_rx, rx_wf, ring_wf. intros (A & B & C & D & _). rewrite A, B, C, D. tauto.
Qed.

Lemma tx_wf_same (s s' : STM32BufferedSerial) : same_tx s s' -> tx_wf s -> tx_wf s'.
Proof.
  unfold same_tx, tx_wf, ring_wf. intros (A & B & C & D). rewrite A, B, C, D. tauto.
Qed.

(** The inbound methods on the outbound half. *)
Lemma handleRxComplete_frame (c : Ctx T) :
  same_tx (self c) (self (snd (handleRxComplete c))) /\
  _rxSize (self (snd (handleRxComplete c))) = _rxSize (self c) /\
  _huart (self (snd (handleRxComplete c))) = _huart (self c).
Proof.
  rewrite handleRxComplete_self. destruct (rx_has_room (self c)); repeat split.
Qed.

Lemma read_frame (c : Ctx T) :
  same_tx (self c) (self (snd (read c))) /\
  _rxSize (self (snd (read c))) = _rxSize (self c) /\
  _huart (self (snd (read c))) = _huart (self c).
Proof. rewrite read_spec. destruct (_ =? _); repeat split. Qed.

(** The outbound methods on the inbound half. *)
Lemma handleTxComplete_frame (c : Ctx T) :
  same_rx (self c) (self (snd (handleTxComplete c))) /\
  _txSize (self (snd (handleTxComplete c))) = _txSize (self c) /\
  _huart (self (snd (handleTxComplete c))) = _huart (self c).
Proof. rewrite handleTxComplete_spec. destruct (_ =? _); repeat split. Qed.

Lemma write_frame (c : Ctx T) (d : byte) :
  same_rx (self c) (self (snd (write d c))) /\
  _txSize (self (snd (write d c))) = _txSize (self c) /\
  _huart (self (snd (write d c))) = _huart (self c).
Proof.
  rewrite write_spec. destruct (tx_full (self c)); [repeat split |].
  destruct (is_READY _); [| repeat split].
  rewrite startTxInterrupt_spec.
  destruct (handleTxComplete_frame (with_self (tx_enqueued d (self c)) c)) as (A & B & C).
  simpl in A, B, C. split; [exact A | split; assumption].
Qed.

Lemma write_loop_frame (data : list byte) :
  forall (written : Z) (c : Ctx T),
    same_rx (self c) (self (snd (write_loop data written c))) /\
    _txSize (self (snd (write_loop data written c))) = _txSize (self c) /\
    _huart (self (snd (write_loop data written c))) = _huart (self c).
Proof.
  induction data as [| d rest IH]; intros written c; simpl.
  - repeat split.
  - unfold bind. destruct (write_frame c d) as (A & B & C).
    destruct (write d c) as [v c1]. simpl in A, B, C.
    destruct (v =? 1); [| split; [exact A | split; assumption]].
    destruct (IH (written + 1) c1) as (A' & B' & C').
    split; [exact (same_rx_trans _ _ _ A A') | split; congruence].
Qed.

Lemma write_keeps_tx_wf (c : Ctx T) (d : byte) :
  tx_wf (self c) -> tx_wf (self (snd (write d c))).
Proof.
  intros Hwf. destruct (tx_full (self c)) eqn:Hfull.
  - rewrite (write_full _ d Hfull). exact Hwf.
  - apply (write_fifo c d Hwf Hfull).
Qed.

Lemma handleRxComplete_keeps_rx_wf (c : Ctx T) :
  rx_wf (self c) -> rx_wf (self (snd (handleRxComplete c))).
Proof.
  intros Hwf. rewrite handleRxComplete_self.
  destruct (rx_has_room (self c)) eqn:Hroom; [| exact Hwf].
  apply (rx_enqueued_spec _ _ Hwf Hroom).
Qed.

Lemma read_keeps_rx_wf (c : Ctx T) :
  rx_wf (self c) -> rx_wf (self (snd (read c))).
Proof.
  intros Hwf. rewrite read_spec.
  destruct (Z.eqb_spec (_rxTail (self c)) (_rxHead (self c))) as [E | E]; [exact Hwf |].
  apply (rx_dequeued_spec _ Hwf E).
Qed.

Lemma keeps_port_intro (c c' : Ctx T) :
  rx_wf (self c') -> tx_wf (self c') ->
  _rxSize (self c') = _rxSize (self c) -> _txSize (self c') = _txSize (self c) ->
  _huart (self c') = _huart (self c) -> keeps_port c c'.
Proof. intros. unfold keeps_port, port_wf, getHandle. tauto. Qed.

(** X11: every method keeps both rings well formed (indices inside the
    arrays, so no access outside them follows), and none changes a
    capacity or the handle [getHandle()] returns. *)
Theorem methods_keep_the_port (c : Ctx T) (d b : byte) (data : list byte) (len : Z) :
  port_wf (self c) ->
  keeps_port c (snd (begin c)) /\
  keeps_port c (snd (handleRxComplete c)) /\
  keeps_port c (snd (handleTxComplete c)) /\
  keeps_port c (snd (read c)) /\
  keeps_port c (snd (write d c)) /\
  keeps_port c (snd (write_buf data len c)) /\
  keeps_port c (snd (push b c)) /\
  keeps_port c (snd (pop c)) /\
  keeps_port c (with_self (flushRx (self c)) c) /\
  keeps_port c (with_self (flushTx (self c)) c).
Proof.
  intros [Hrx Htx].
  assert (Hpush : forall b', self (snd (push b' c)) =
            if rx_has_room (self c) then rx_enqueued b' (self c) else self c).
  { intros b'. run_m. unfold rx_has_room, rx_enqueued. destruct (negb _); reflexivity. }
  repeat match goal with |- _ /\ _ => split end.
  - run_m. destruct (HAL_UART_Receive_IT (uart c)). apply keeps_port_intro; auto.
  - destruct (handleRxComplete_frame c) as (A & B & C).
    apply keeps_port_intro; auto using handleRxComplete_keeps_rx_wf.
    + exact (tx_wf_same _ _ A Htx).
    + apply A.
  - destruct (handleTxComplete_frame c) as (A & B & C).
    apply keeps_port_intro; auto.
    + exact (rx_wf_same _ _ A Hrx).
    + apply (handleTx_fifo c Htx).
    + apply A.
  - destruct (read_frame c) as (A & B & C).
    apply keeps_port_intro; auto using read_keeps_rx_wf.
    + exact (tx_wf_same _ _ A Htx).
    + apply A.
  - destruct (write_frame c d) as (A & B & C).
    apply keeps_port_intro; auto using write_keeps_tx_wf.
    + exact (rx_wf_same _ _ A Hrx).
    + apply A.
  - unfold write_buf.
    destruct (write_loop_frame (take (Z.to_nat len) data) 0 c) as (A & B & C).
    apply keeps_port_intro; auto.
    + exact (rx_wf_same _ _ A Hrx).
    + apply (write_loop_any (take (Z.to_nat len) data) 0 c Htx).
    + apply A.
  - apply keeps_port_intro; rewrite Hpush;
      destruct (rx_has_room (self c)) eqn:Hroom; auto.
    apply (rx_enqueued_spec _ _ Hrx Hroom).
  - rewrite pop_is_read. destruct (read_frame c) as (A & B & C).
    apply keeps_port_intro; auto using read_keeps_rx_wf.
    + exact (tx_wf_same _ _ A Htx).
    + apply A.
  - apply keeps_port_intro; auto.
    destruct Hrx as (HN & _ & _ & Hlen). unfold rx_wf, ring_wf. simpl. repeat split; lia.
  - apply keeps_port_intro; auto.
    destruct Htx as (HN & _ & _ & Hlen). unfold tx_wf, ring_wf. simpl. repeat split; lia.
Qed.

(** X12: the two directions do not interfere.  The inbound methods
    leave the outbound array, capacity and indices as they are, and the
    outbound methods leave the inbound array, capacity, indices and
    staging byte as they are. *)
Theorem directions_are_independent (c : Ctx T) (d b : byte) (data : list byte) (len : Z) :
  same_tx (self c) (self (snd (handleRxComplete c))) /\
  same_tx (self c) (self (snd (rx_event b c))) /\
  same_tx (self c) (self (snd (read c))) /\
  same_tx (self c) (flushRx (self c)) /\
  same_rx (self c) (self (snd (handleTxComplete c))) /\
  same_rx (self c) (self (snd (write d c))) /\
  same_rx (self c) (self (snd (write_buf data len c))) /\
  same_rx (self c) (flushTx (self c)).
Proof.
  repeat match goal with |- _ /\ _ => split end.
  - apply handleRxComplete_frame.
  - unfold rx_event, bind, hw_store_rx, get_self, put_self. simpl.
    apply (handleRxComplete_frame
             {| self := with_rxTmp b (self c); uart := uart c; hal_trace := hal_trace c |}).
  - apply read_frame.
  - repeat split.
  - apply handleTxComplete_frame.
  - apply write_frame.
  - apply write_loop_frame.
  - repeat split.
Qed.

(** X13: [flushRx] empties the inbound ring from any index state.
    Afterwards nothing is available, [read] returns [-1], and the whole
    capacity is free again: of the bytes that arrive next the first
    [N - 1] are stored, in order. *)
Theorem flushRx_empties_the_ring (c : Ctx T) (bs : list byte) :
  0 < _rxSize (self c) < 65536 ->
  Z.of_nat (length (_rxBuf (self c))) = _rxSize (self c) ->
  let c0 := with_self (flushRx (self c)) c in
  readable_len (self c0) = 0 /\
  available (self c0) = false /\
  read c0 = (-1, c0) /\
  rx_contents (self (snd (run_all (map rx_event bs) c0)))
    = take (Z.to_nat (_rxSize (self c) - 1)) bs.
Proof.
  intros HN Hlen c0.
  assert (Hwf : rx_wf (self c0)).
  { unfold rx_wf, ring_wf. simpl. repeat split; lia. }
  assert (Hq : rx_contents (self c0) = []).
  { destruct Hwf as (_ & Hh & Ht & _).
    apply (proj2 (ring_contents_empty (_rxBuf (self c0)) _ _ _ Hh Ht)). reflexivity. }
  split; [reflexivity | split; [reflexivity | split; [reflexivity |]]].
  destruct (rx_events_overflow bs c0 Hwf) as (_ & _ & C).
  rewrite C, Hq. simpl. rewrite Z.sub_0_r. reflexivity.
Qed.

(** X14: [flushTx] discards the bytes still queued for transmission:
    afterwards the outbound ring is empty from any index state, and no
    number of transmit completions hands any byte to the transport. *)
Theorem flushTx_discards_pending (c : Ctx T) (n : nat) :
  0 < _txSize (self c) < 65536 ->
  Z.of_nat (length (_txBuf (self c))) = _txSize (self c) ->
  let c0 := with_self (flushTx (self c)) c in
  tx_contents (self c0) = [] /\
  handleTxComplete c0 = (tt, c0) /\
  transmitted (hal_trace (snd (run_all (replicate n handleTxComplete) c0)))
    = transmitted (hal_trace c).
Proof.
  intros HN Hlen c0.
  assert (Hwf : tx_wf (self c0)).
  { unfold tx_wf, ring_wf. simpl. repeat split; lia. }
  assert (Hq : tx_contents (self c0) = []).
  { destruct Hwf as (_ & Hh & Ht & _).
    apply (proj2 (ring_contents_empty (_txBuf (self c0)) _ _ _ Hh Ht)). reflexivity. }
  split; [exact Hq | split; [reflexivity |]].
  destruct (tx_completions_state n c0 Hwf) as (_ & S1 & _).
  rewrite S1, Hq, take_nil, app_nil_r. reflexivity.
Qed.

(** X15: the private helpers duplicate the public path: [pop] is [read],
    and [push] of the staged byte is the storing half of
    [handleRxComplete], without the re-arm: it makes no HAL call. *)
Theorem private_helpers_duplicate_public_path (c : Ctx T) (b : byte) :
  pop c = read c /\
  self (snd (push (_rxTmp (self c)) c)) = self (snd (handleRxComplete c)) /\
  uart (snd (push b c)) = uart c /\
  hal_trace (snd (push b c)) = hal_trace c.
Proof.
  split; [apply pop_is_read | split; [apply push_is_handleRxComplete_store |]].
  run_m. destruct (negb _); split; reflexivity.
Qed.

End Frames.

Lemma methods_keep_the_port_witness :
  port_wf (self full4_ctx) /\
  keeps_port full4_ctx (snd (write_buf ten_bytes 10 full4_ctx)) /\
  keeps_port full4_ctx (snd (handleTxComplete full4_ctx)).
Proof.
  assert (Hwf : port_wf (self full4_ctx)) by wf_compute.
  split; [exact Hwf |].
  destruct (methods_keep_the_port full4_ctx x00 x00 ten_bytes 10 Hwf)
    as (_ & _ & Htx & _ & _ & Hbuf & _).
  split; [exact Hbuf | exact Htx].
Defined.

Lemma flushRx_empties_the_ring_witness :
  0 < _rxSize (self one_queued_ctx) < 65536 /\
  read (with_self (flushRx (self one_queued_ctx)) one_queued_ctx)
    = (-1, with_self (flushRx (self one_queued_ctx)) one_queued_ctx) /\
  rx_contents (self (snd (run_all (map rx_event ten_bytes)
                            (with_self (flushRx (self one_queued_ctx)) one_queued_ctx))))
    = [x30; x31; x32; x33; x34; x35; x36].
Proof.
  assert (HN : 0 < _rxSize (self one_queued_ctx) < 65536) by (vm_compute; split; reflexivity).
  split; [exact HN |].
  destruct (flushRx_empties_the_ring one_queued_ctx ten_bytes HN eq_refl)
    as (_ & _ & Hr & Hc).
  split; [exact Hr | rewrite Hc; reflexivity].
Defined.

Lemma flushTx_discards_pending_witness :
  0 < _txSize (self full4_ctx) < 65536 /\
  tx_contents (self full4_ctx) = [x61; x62; x63] /\
  transmitted (hal_trace (snd (run_all (replicate 5 handleTxComplete)
                                  (with_self (flushTx (self full4_ctx)) full4_ctx)))) = [].
Proof.
  assert (HN : 0 < _txSize (self full4_ctx) < 65536) by (vm_compute; split; reflexivity).
  split; [exact HN | split; [reflexivity |]].
  destruct (flushTx_discards_pending full4_ctx 5 HN eq_refl) as (_ & _ & Hs).
  rewrite Hs. reflexivity.
Defined.

(** ** Dispatch through the registry *)

Section Dispatch.
Context {T : Type} `{Transport T} `{Device}.

Lemma invoke_frame {A : Type} (this : ptr) (m : M T A) (w w' : World T) :
  invoke_ this m w = Some w' ->
  instance_table_ w' = instance_table_ w /\
  forall other : ptr, other <> this -> objects w' !! other = objects w !! other.
Proof.
  unfold invoke_, invoke.
  destruct (objects w !! this) as [o |]; simpl; [| discriminate].
  destruct (handles w !! _huart o) as [u |]; simpl; [| discriminate].
  destruct (m _) as [a c]. simpl. intros [= <-]. simpl.
  split; [reflexivity |]. intros other Hne. apply lookup_insert_ne. congruence.
Qed.

Lemma invoke_defined {A : Type} (this : ptr) (m : M T A) (w : World T)
    (o : STM32BufferedSerial) (u : T) :
  objects w !! this = Some o -> handles w !! _huart o = Some u ->
  is_Some (invoke_ this m w).
Proof.
  intros Ho Hu. unfold invoke_, invoke. rewrite Ho. simpl. rewrite Hu. simpl.
  destruct (m _) as [a c]. simpl. eexists. reflexivity.
Qed.

(** X16: construction wires the callbacks to the new object.  After the
    constructor has run with a capacity in [1, 65535] (so that the [%]
    of the handlers is defined), for an object at a non-null address on
    a handle of a supported peripheral, the new object is well formed,
    and both completion callbacks for that handle run the matching
    handler on that object: the object and its handle are there. *)
Theorem construct_then_callbacks_reach_the_object
    (this huart : ptr) (bufSize : Z) (rxInit txInit : list byte) (w : World T) (h : T) :
  handles w !! huart = Some h ->
  supported (uart_Instance h) ->
  length (instance_table_ w) = MAX_UARTS ->
  this <> nullptr ->
  0 < bufSize < 65536 ->
  Z.of_nat (length rxInit) = bufSize ->
  Z.of_nat (length txInit) = bufSize ->
  exists w' : World T,
    construct this huart bufSize rxInit txInit w = Some w' /\
    objects w' !! this = Some (new_serial huart bufSize rxInit txInit) /\
    port_wf (new_serial huart bufSize rxInit txInit) /\
    HAL_UART_RxCpltCallback huart w' = invoke_ this handleRxComplete w' /\
    HAL_UART_TxCpltCallback huart w' = invoke_ this handleTxComplete w' /\
    is_Some (HAL_UART_RxCpltCallback huart w') /\
    is_Some (HAL_UART_TxCpltCallback huart w').
Proof.
  intros Hh Hs Hlen Hnn HN Hrx Htx.
  unfold construct, call_registerInstance. simpl. rewrite Hh. simpl.
  eexists. split; [reflexivity |]. simpl.
  split; [apply lookup_insert_eq |].
  split; [unfold port_wf, rx_wf, tx_wf, ring_wf; simpl; repeat split; lia |].
  unfold HAL_UART_RxCpltCallback, HAL_UART_TxCpltCallback. simpl. rewrite Hh. simpl.
  rewrite (fromHandle_register_same h this _ Hlen Hs).
  apply Z.eqb_neq in Hnn. rewrite Hnn.
  split; [reflexivity | split; [reflexivity |]].
  split; eapply invoke_defined; simpl;
    try (apply lookup_insert_eq); simpl; exact Hh.
Qed.

(** X17: a port built on a handle whose [Instance] is none of the six
    peripherals (for instance one not initialised yet) is not
    registered: the constructor leaves the table as it is, and both
    callbacks for that handle do nothing, whatever the table holds. *)
Theorem construct_on_unsupported_handle_is_not_dispatched
    (this huart : ptr) (bufSize : Z) (rxInit txInit : list byte) (w : World T) (h : T) :
  handles w !! huart = Some h ->
  ~ supported (uart_Instance h) ->
  exists w' : World T,
    construct this huart bufSize rxInit txInit w = Some w' /\
    instance_table_ w' = instance_table_ w /\
    HAL_UART_RxCpltCallback huart w' = Some w' /\
    HAL_UART_TxCpltCallback huart w' = Some w'.
Proof.
  intros Hh Hs. pose proof (slot_of_unsupported _ Hs) as Hslot.
  unfold construct, call_registerInstance. simpl. rewrite Hh. simpl.
  eexists. split; [reflexivity |]. simpl.
  split; [rewrite registerInstance_slot, Hslot; reflexivity |].
  unfold HAL_UART_RxCpltCallback, HAL_UART_TxCpltCallback. simpl. rewrite Hh. simpl.
  rewrite fromHandle_slot, Hslot. split; reflexivity.
Qed.

(** X18: a completion callback touches at most the object registered
    for the handle's peripheral: the table and every other object are
    as before. *)
Theorem callback_touches_only_the_registered_object
    (huart : ptr) (w w' : World T) (h : T) :
  handles w !! huart = Some h ->
  HAL_UART_RxCpltCallback huart w = Some w' \/
  HAL_UART_TxCpltCallback huart w = Some w' ->
  instance_table_ w' = instance_table_ w /\
  forall other : ptr,
    other <> fromHandle h (instance_table_ w) ->
    objects w' !! other = objects w !! other.
Proof.
  intros Hh Hcb.
  unfold HAL_UART_RxCpltCallback, HAL_UART_TxCpltCallback in Hcb.
  rewrite Hh in Hcb. simpl in Hcb.
  destruct (fromHandle h (instance_table_ w) =? nullptr).
  - assert (w' = w) as -> by (destruct Hcb as [E | E]; congruence).
    split; [reflexivity | intros; reflexivity].
  - destruct Hcb as [E | E]; exact (invoke_frame _ _ _ _ E).
Qed.

End Dispatch.

Lemma construct_then_callbacks_reach_the_object_witness :
  exists w' : World SimUart,
    construct 0x20000000 0x20001000 8 (replicate 8 x00) (replicate 8 x00) boot_world
      = Some w' /\
    HAL_UART_RxCpltCallback 0x20001000 w' = invoke_ 0x20000000 handleRxComplete w' /\
    is_Some (HAL_UART_RxCpltCallback 0x20001000 w').
Proof.
  destruct (construct_then_callbacks_reach_the_object
              0x20000000 0x20001000 8 (replicate 8 x00) (replicate 8 x00)
              boot_world sim_idle)
    as (w' & Hc & _ & _ & Hrx & _ & Hdef & _).
  - reflexivity.
  - right; left; reflexivity.
  - reflexivity.
  - vm_compute. discriminate.
  - vm_compute. split; reflexivity.
  - reflexivity.
  - reflexivity.
  - exists w'. split; [exact Hc | split; [exact Hrx | exact Hdef]].
Defined.

Lemma construct_on_unsupported_handle_is_not_dispatched_witness :
  exists w' : World SimUart,
    construct 0x20000000 0x20001000 8 (replicate 8 x00) (replicate 8 x00) early_world
      = Some w' /\
    instance_table_ w' = instance_table_init /\
    HAL_UART_RxCpltCallback 0x20001000 w' = Some w'.
Proof.
  destruct (construct_on_unsupported_handle_is_not_dispatched
              0x20000000 0x20001000 8 (replicate 8 x00) (replicate 8 x00)
              early_world sim_unset)
    as (w' & Hc & Ht & Hrx & _).
  - reflexivity.
  - vm_compute. intros [E | [E | [E | [E | [E | E]]]]]; discriminate E.
  - exists w'. split; [exact Hc | split; [exact Ht | exact Hrx]].
Defined.

Lemma callback_touches_only_the_registered_object_witness :
  exists w' : World SimUart,
    HAL_UART_RxCpltCallback 0x20001000 constructed_world = Some w' /\
    instance_table_ w' = instance_table_ constructed_world /\
    objects w' !! 0x20000400 = objects constructed_world !! 0x20000400.
Proof.
  assert (Hdef : is_Some (HAL_UART_RxCpltCallback 0x20001000 constructed_world))
    by (vm_compute; eexists; reflexivity).
  destruct Hdef as [w' Hw']. exists w'. split; [exact Hw' |].
  destruct (callback_touches_only_the_registered_object
              0x20001000 constructed_world w' sim_idle) as (Ht & Hobj).
  - reflexivity.
  - left. exact Hw'.
  - split; [exact Ht |]. apply Hobj. vm_compute. discriminate.
Defined.

(** ** [begin] on the simulated transport *)

(** X19: [begin] asks once and does not look at the answer.  When the
    transport rejects the request, [begin] leaves the transport exactly
    as it was, so no receive request is added, while [handleRxComplete]
    from the same state recovers and leaves one outstanding; when the
    request is accepted, one more request is outstanding.  The object
    is untouched either way. *)
Theorem begin_has_no_busy_recovery (c : Ctx SimUart) :
  self (snd (begin c)) = self c /\
  receive_requests (hal_trace (snd (begin c))) = S (receive_requests (hal_trace c)) /\
  (if is_HAL_OK (fst (HAL_UART_Receive_IT (uart c)))
   then sim_rx_outstanding (uart (snd (begin c))) = S (sim_rx_outstanding (uart c))
   else uart (snd (begin c)) = uart c /\
        sim_rx_outstanding (uart (snd (handleRxComplete c))) = 1%nat).
Proof.
  assert (Hreq : forall l r, receive_requests (l ++ [Call_Receive_IT r])
                             = S (receive_requests l)).
  { induction l as [| e l IH]; intros r; simpl; [reflexivity |].
    destruct e; simpl; rewrite IH; reflexivity. }
  destruct c as [s [i g rx lock n] tr]. run_m. simpl.
  unfold sim_Receive_IT. simpl.
  destruct rx, lock; simpl;
    (split; [reflexivity | split; [apply Hreq |]]); try reflexivity;
    destruct (negb _); simpl; split; reflexivity.
Qed.

(** ** Outbound round trip *)

Section OutboundRoundTrip.
Context {T : Type} `{Transport T}.

(** X20: outbound round trip.  When [len] bytes fit into the free slots,
    [write(data, len)] accepts them all, and once [N - 1] (or more)
    transmit completions have followed, the transport has been handed
    exactly the bytes queued before followed by those [len] bytes, in
    order, and the ring is empty; this holds on any transport, whether
    or not a [write] made the kick-off itself. *)
Theorem tx_round_trip (c : Ctx T) (data : list byte) (len : Z) (n : nat) :
  tx_wf (self c) ->
  0 <= len <= Z.of_nat (length data) ->
  len <= _txSize (self c) - 1 - Z.of_nat (length (tx_contents (self c))) ->
  _txSize (self c) - 1 <= Z.of_nat n ->
  let c1 := snd (write_buf data len c) in
  let c2 := snd (run_all (replicate n handleTxComplete) c1) in
  fst (write_buf data len c) = len /\
  transmitted (hal_trace c2) =
    transmitted (hal_trace c) ++ tx_contents (self c) ++ take (Z.to_nat len) data /\
  tx_contents (self c2) = [].
Proof.
  intros Hwf Hlen Hfit Hn c1 c2. subst c2 c1. unfold write_buf.
  destruct (write_loop_any (take (Z.to_nat len) data) 0 c Hwf) as (Hb & W & F).
  rewrite Z.sub_0_r in Hb, F. rewrite length_take in Hb.
  assert (Hres : fst (write_loop (take (Z.to_nat len) data) 0 c) = len) by lia.
  rewrite Hres in F. rewrite take_take in F.
  replace (Z.to_nat len `min` Z.to_nat len)%nat with (Z.to_nat len) in F by lia.
  destruct (write_loop_frame (take (Z.to_nat len) data) 0 c) as (_ & Sz & _).
  pose proof (tx_contents_bound _ W) as Hq1. rewrite Sz in Hq1.
  destruct (tx_completions_state n _ W) as (_ & S2 & C2).
  split; [exact Hres |].
  assert (Hl : (length (tx_contents
                  (self (snd (write_loop (take (Z.to_nat len) data) 0 c)))) <= n)%nat)
    by lia.
  rewrite S2, C2, (take_ge _ _ Hl), (drop_ge _ _ Hl).
  split; [exact F | reflexivity].
Qed.

End OutboundRoundTrip.

Lemma tx_round_trip_witness :
  tx_wf (self (fresh_ctx 8 sim_idle)) /\
  fst (write_buf ten_bytes 5 (fresh_ctx 8 sim_idle)) = 5 /\
  transmitted (hal_trace (snd (run_all (replicate 7 handleTxComplete)
                                  (snd (write_buf ten_bytes 5 (fresh_ctx 8 sim_idle))))))
    = [x30; x31; x32; x33; x34].
Proof.
  assert (Hwf : tx_wf (self (fresh_ctx 8 sim_idle))) by wf_compute.
  split; [exact Hwf |].
  destruct (tx_round_trip (fresh_ctx 8 sim_idle) ten_bytes 5 7 Hwf) as (Hr & Hs & _).
  - vm_compute. split; discriminate.
  - vm_compute. discriminate.
  - vm_compute. discriminate.
  - split; [exact Hr | rewrite Hs; reflexivity].
Defined.
